(** * Verification of yuvicc/my-notes, [src/data_structures]

    A shallow embedding of

    - [segment_tree.cpp]   : [SegmentTree] ([build], [sum], [update]),
    - [shared_ptr.cpp]     : [customSharedPtr] (copy construction, [use_count]),
    - [unique_pointer.cpp] : [customUniquePointer] (move construction, move
                             assignment, [get], [operator bool]),

    together with the properties stated about them.

    Modelling conventions.

    - [long long] values are integers in [Z]; the addition of two of them is
      written with its 64-bit two's complement wrap-around ([ll_add]).
    - [int] node numbers and interval bounds are integers in [Z].  Every
      index the functions compute on valid arguments lies below [4 * n],
      so this is exact as long as [4 * n] fits an [int]; the theorems
      about trees built from an array assume [4 * n <= int_max].  Integer
      division is C++ division, which truncates towards zero ([Z.quot]).
    - [std::vector::operator[]] does not check its index: an access outside
      the vector is undefined behaviour, which the model reports as the
      outcome [Fault].
    - The recursive functions take a [fuel] argument bounding the recursion
      depth; a call that exhausts it has outcome [Diverge].  The theorems
      show that a fuel of [n] is enough on valid arguments. *)

From stdpp Require Import base option list gmap.
From Stdlib Require Import ZArith Lia.

Local Open Scope Z_scope.

(** ** Outcomes and the state monad of a [SegmentTree] object *)

Inductive outcome (A : Type) : Type :=
| Done (a : A)     (* the call returned *)
| Fault            (* out-of-bounds access to a vector *)
| Diverge.         (* recursion deeper than the fuel *)

Arguments Done {A} a.
Arguments Fault {A}.
Arguments Diverge {A}.

(** The member [tree] of the struct, with a ghost field recording which
    slots of [tree] have been read or written, most recent first.  The
    member [size] of the source is never initialised, read or written and is
    left out. *)
Record SegmentTree : Type := mkSegmentTree {
  tree : list Z;
  touched : list Z
}.

Definition M (A : Type) : Type := SegmentTree -> outcome (A * SegmentTree).

#[global] Instance M_ret : MRet M := fun A a s => Done (a, s).

#[global] Instance M_bind : MBind M := fun A B k m s =>
  match m s with
  | Done (a, s') => k a s'
  | Fault => Fault
  | Diverge => Diverge
  end.

Definition diverge {A : Type} : M A := fun _ => Diverge.

(** The value an outcome carries, forgetting the object state. *)
Definition value {A : Type} (o : outcome (A * SegmentTree)) : outcome A :=
  match o with
  | Done (a, _) => Done a
  | Fault => Fault
  | Diverge => Diverge
  end.

Definition state {A : Type} (o : outcome (A * SegmentTree)) : outcome SegmentTree :=
  match o with
  | Done (_, s) => Done s
  | Fault => Fault
  | Diverge => Diverge
  end.

(** ** 64-bit signed arithmetic *)

Definition ll_min : Z := - 2 ^ 63.
Definition ll_max : Z := 2 ^ 63 - 1.
Definition is_ll (z : Z) : Prop := ll_min <= z <= ll_max.

Definition int_min : Z := - 2 ^ 31.
Definition int_max : Z := 2 ^ 31 - 1.
Definition is_int (z : Z) : Prop := int_min <= z <= int_max.

Definition ll_wrap (z : Z) : Z := (z + 2 ^ 63) mod 2 ^ 64 - 2 ^ 63.

(** [a + b] on [long long]. *)
Definition ll_add (a b : Z) : Z := ll_wrap (a + b).

(** ** Vector accesses *)

(** [vec[i]] for an [int] index: converted to [size_t], a negative index is
    far out of range. *)
Definition vec_at (vec : list Z) (i : Z) : option Z :=
  if 0 <=? i then vec !! Z.to_nat i else None.

(** [tree[i]] read. *)
Definition tree_read (i : Z) : M Z := fun s =>
  match vec_at (tree s) i with
  | Some x => Done (x, mkSegmentTree (tree s) (i :: touched s))
  | None => Fault
  end.

(** [tree[i] = x]. *)
Definition tree_write (i x : Z) : M unit := fun s =>
  match vec_at (tree s) i with
  | Some _ => Done (tt, mkSegmentTree (<[Z.to_nat i := x]> (tree s)) (i :: touched s))
  | None => Fault
  end.

(** [arr[i]] read. *)
Definition arr_read (arr : list Z) (i : Z) : M Z := fun s =>
  match vec_at arr i with
  | Some x => Done (x, s)
  | None => Fault
  end.

(** ** [struct SegmentTree] *)

(** The midpoint [tl + (tr - tl) / 2]. *)
Definition mid (tl tr : Z) : Z := tl + (tr - tl) ÷ 2.

(** [void build(const std::vector<ll>& arr, int v, int tl, int tr)] *)
Fixpoint build (fuel : nat) (arr : list Z) (v tl tr : Z) : M unit :=
  match fuel with
  | O => diverge
  | S fuel =>
      if tl =? tr then
        x ← arr_read arr tl;
        tree_write v x
      else
        let tm := mid tl tr in
        build fuel arr (v * 2) tl tm;;
        build fuel arr (v * 2 + 1) (tm + 1) tr;;
        a ← tree_read (2 * v);
        b ← tree_read (2 * v + 1);
        tree_write v (ll_add a b)
  end.

(** [ll sum(int v, int tl, int tr, int l, int r)] *)
Fixpoint sum (fuel : nat) (v tl tr l r : Z) : M Z :=
  match fuel with
  | O => diverge
  | S fuel =>
      if l >? r then mret 0
      else if (l =? tl) && (r =? tr) then tree_read v
      else
        let tm := mid tl tr in
        a ← sum fuel (2 * v) tl tm l (Z.min r tm);
        b ← sum fuel (2 * v + 1) (tm + 1) tr (Z.max l (tm + 1)) r;
        mret (ll_add a b)
  end.

(** [void update(int v, int tl, int tr, int pos, int val)] *)
Fixpoint update (fuel : nat) (v tl tr pos val : Z) : M unit :=
  match fuel with
  | O => diverge
  | S fuel =>
      if tl =? tr then
        tree_write v val
      else
        let tm := mid tl tr in
        (if pos <=? tm then update fuel (2 * v) tl tm pos val
         else update fuel (2 * v + 1) (tm + 1) tr pos val);;
        a ← tree_read (2 * v);
        b ← tree_read (2 * v + 1);
        tree_write v (ll_add a b)
  end.

(** [SegmentTree(const std::vector<ll>& arr)]: [tree.assign(4 * n, 0)] and
    [build(arr, 1, 0, n - 1)]. *)
Definition SegmentTree_new (fuel : nat) (arr : list Z) : outcome SegmentTree :=
  let n := Z.of_nat (length arr) in
  state (build fuel arr 1 0 (n - 1) (mkSegmentTree (replicate (4 * length arr) 0) [])).

(** [void update(int pos, int val)].  The source writes
    [update(1, 0, n - 1, pos, val)] with an [n] the struct does not declare;
    it is a parameter here, the length of the array the tree was built
    from. *)
Definition update_pos (fuel : nat) (n : Z) (pos val : Z) : M unit :=
  update fuel 1 0 (n - 1) pos val.

(** The range query of the interface, [sum] called at the root
    [(v = 1, tl = 0, tr = n - 1)]. *)
Definition query (fuel : nat) (n : Z) (l r : Z) : M Z :=
  sum fuel 1 0 (n - 1) l r.

(** A sequence of [update(pos, val)] calls, in order. *)
Fixpoint updates (fuel : nat) (n : Z) (ops : list (Z * Z)) : M unit :=
  match ops with
  | [] => mret tt
  | (pos, val) :: ops => update_pos fuel n pos val;; updates fuel n ops
  end.

(** The object after construction from [arr] followed by the updates
    [ops]. *)
Definition tree_after (fuel : nat) (arr : list Z) (ops : list (Z * Z)) : outcome SegmentTree :=
  match SegmentTree_new fuel arr with
  | Done s => state (updates fuel (Z.of_nat (length arr)) ops s)
  | Fault => Fault
  | Diverge => Diverge
  end.

(** ** [class customSharedPtr] *)

Module SharedPtr.

(** A [std::size_t*]: null, or the cell at offset [off] (counted in cells)
    from the start of the allocation [blk].  [new size_t(1)] allocates one
    cell, so only offset 0 may be dereferenced. *)
Inductive count_ptr : Type :=
| null_count
| cell (blk : nat) (off : Z).

(** The free store of reference counters: allocation number to the
    [size_t] it holds. *)
Abbreviation heap := (gmap nat Z).

(** A [T*]: [None] is [nullptr]. *)
Definition pointer : Type := option nat.

Record customSharedPtr : Type := mk {
  m_ptr : pointer;
  m_ref_count : count_ptr
}.

Definition size_t_wrap (z : Z) : Z := z mod 2 ^ 64.

(** [*p] for a [std::size_t* p]. *)
Definition deref (h : heap) (p : count_ptr) : outcome Z :=
  match p with
  | cell blk 0 => match h !! blk with Some c => Done c | None => Fault end
  | _ => Fault
  end.

(** [p++] on a [std::size_t* p]: arithmetic on a null pointer is
    undefined. *)
Definition ptr_incr (p : count_ptr) : outcome count_ptr :=
  match p with
  | null_count => Fault
  | cell blk off => Done (cell blk (off + 1))
  end.

(** [customSharedPtr(T* ptr)]: [m_ptr(ptr), m_ref_count(new size_t(1))]. *)
Definition ctor (h : heap) (ptr : pointer) : customSharedPtr * heap :=
  let blk := fresh (dom h) in
  (mk ptr (cell blk 0), <[blk := 1]> h).

(** [customSharedPtr(const customSharedPtr& other)]: the members are
    copied, then the body is [*m_ref_count++;].  Postfix [++] binds tighter
    than [*]: the statement advances the pointer member and discards the
    cell it pointed to, which is not written. *)
Definition copy_ctor (h : heap) (other : customSharedPtr) : outcome (customSharedPtr * heap) :=
  let this := mk (m_ptr other) (m_ref_count other) in
  match ptr_incr (m_ref_count this) with
  | Done p' => Done (mk (m_ptr this) p', h)
  | Fault => Fault
  | Diverge => Diverge
  end.

(** [operator=(const customSharedPtr& other)]: the members are copied and,
    for a non-null [other.m_ptr], [( *this->m_ref_count )++]. *)
Definition copy_assign (h : heap) (other : customSharedPtr) : outcome (customSharedPtr * heap) :=
  let this := mk (m_ptr other) (m_ref_count other) in
  match m_ptr other with
  | Some _ =>
      match m_ref_count this, deref h (m_ref_count this) with
      | cell blk _, Done c => Done (this, <[blk := size_t_wrap (c + 1)]> h)
      | _, _ => Fault
      end
  | None => Done (this, h)
  end.

(** [long use_count() const]: [static_cast<long>( *this->m_ref_count)]. *)
Definition use_count (h : heap) (this : customSharedPtr) : outcome Z :=
  match deref h (m_ref_count this) with
  | Done c => Done (ll_wrap c)
  | Fault => Fault
  | Diverge => Diverge
  end.

(** [T* get() const]. *)
Definition get (this : customSharedPtr) : pointer := m_ptr this.

(** [customSharedPtr(customSharedPtr&& other)]:
    [m_ptr(std::exchange(other.m_ptr, nullptr))],
    [m_ref_count(std::exchange(other.m_ref_count, nullptr))].  The result is
    the new object and [other] as the move leaves it. *)
Definition move_ctor (other : customSharedPtr) : customSharedPtr * customSharedPtr :=
  (mk (m_ptr other) (m_ref_count other), mk None null_count).

(** [~customSharedPtr()], on the counters [h] and the set [live] of managed
    objects not yet deleted: for a non-null [m_ref_count],
    [( *m_ref_count )--] and, when the counter reached 0, [delete m_ptr] and
    [delete m_ref_count].  Deleting an object that is not live is
    undefined. *)
Definition dtor (h : heap) (live : gset nat) (this : customSharedPtr)
  : outcome (heap * gset nat) :=
  match m_ref_count this with
  | null_count => Done (h, live)
  | cell blk off =>
      match deref h (cell blk off) with
      | Done c =>
          let c' := size_t_wrap (c - 1) in
          let h1 := <[blk := c']> h in
          if c' =? 0 then
            match m_ptr this with
            | Some a =>
                if decide (a ∈ live) then Done (delete blk h1, live ∖ {[a]}) else Fault
            | None => Done (delete blk h1, live)
            end
          else Done (h1, live)
      | _ => Fault
      end
  end.

End SharedPtr.

(** ** [class customUniquePointer] *)

Module UniquePtr.

(** A [T*]: [None] is [nullptr]. *)
Definition pointer : Type := option nat.

(** A deleter, by its effect on the set of live allocations. *)
Record Deleter : Type := mkDeleter {
  call : pointer -> gset nat -> gset nat
}.

(** [std::default_delete<T>]: [delete ptr], nothing for [nullptr]. *)
Definition default_delete : Deleter :=
  mkDeleter (fun ptr live => match ptr with Some a => live ∖ {[a]} | None => live end).

Record customUniquePointer : Type := mk {
  mPtr : pointer;
  mDeleter : Deleter
}.

(** The [customUniquePointer] objects in existence, by identity, and the
    live allocations.  Moves take their source by reference, so source and
    destination are named by identity and may be the same object. *)
Record world : Type := mkWorld {
  objs : gmap nat customUniquePointer;
  live : gset nat
}.

(** [explicit customUniquePointer(pointer ptr)], constructing object [x]. *)
Definition ctor (w : world) (x : nat) (ptr : pointer) : option world :=
  match objs w !! x with
  | Some _ => None
  | None => Some (mkWorld (<[x := mk ptr default_delete]> (objs w)) (live w))
  end.

(** [pointer get()]. *)
Definition get (w : world) (x : nat) : option pointer :=
  mPtr <$> objs w !! x.

(** [explicit operator bool() const]: [mPtr != nullptr]. *)
Definition to_bool (w : world) (x : nat) : option bool :=
  (fun o => bool_decide (mPtr o <> None)) <$> objs w !! x.

(** [std::exchange(other.mPtr, nullptr)]: the old value and the new store. *)
Definition exchange_mPtr (os : gmap nat customUniquePointer) (other : nat)
  : option (pointer * gmap nat customUniquePointer) :=
  o ← os !! other;
  Some (mPtr o, <[other := mk None (mDeleter o)]> os).

(** [customUniquePointer(customUniquePointer&& other)], constructing the new
    object [this]:
    [mPtr{std::exchange(other.mPtr, nullptr)}, mDeleter{std::move(other.mDeleter)}]. *)
Definition move_ctor (w : world) (this other : nat) : option world :=
  match objs w !! this with
  | Some _ => None
  | None =>
      '(p, os1) ← exchange_mPtr (objs w) other;
      o ← os1 !! other;
      Some (mkWorld (<[this := mk p (mDeleter o)]> os1) (live w))
  end.

(** [operator=(customUniquePointer&& other)]: [mDeleter(mPtr);]
    [mPtr = std::exchange(other.mPtr, nullptr);]
    [mDeleter = std::move(other.mDeleter);]. *)
Definition move_assign (w : world) (this other : nat) : option world :=
  t0 ← objs w !! this;
  let live1 := call (mDeleter t0) (mPtr t0) (live w) in
  '(p, os1) ← exchange_mPtr (objs w) other;
  t1 ← os1 !! this;
  let os2 := <[this := mk p (mDeleter t1)]> os1 in
  o2 ← os2 !! other;
  t2 ← os2 !! this;
  Some (mkWorld (<[this := mk (mPtr t2) (mDeleter o2)]> os2) live1).

(** The two pointers of [main] before [cup2 = std::move(cup1)]: [cup1] is
    object 1 and owns allocation 0, [cup2] is object 2 and owns
    allocation 1. *)
Definition main_world : world :=
  mkWorld (<[2%nat := mk (Some 1%nat) default_delete]>
             (<[1%nat := mk (Some 0%nat) default_delete]> ∅))
          {[0%nat; 1%nat]}.

(** [pointer release()]: [std::exchange(mPtr, nullptr)]; the deleter is
    not called. *)
Definition release (w : world) (x : nat) : option (pointer * world) :=
  '(p, os1) ← exchange_mPtr (objs w) x;
  Some (p, mkWorld os1 (live w)).

(** [~customUniquePointer()]: [mDeleter(std::exchange(mPtr, nullptr))], and
    the object ceases to exist. *)
Definition dtor (w : world) (x : nat) : option world :=
  '(p, os1) ← exchange_mPtr (objs w) x;
  o ← os1 !! x;
  Some (mkWorld (delete x os1) (call (mDeleter o) p (live w))).

(** [operator=(std::nullptr_t)]: [mDeleter(mPtr); mPtr = nullptr;]. *)
Definition assign_null (w : world) (x : nat) : option world :=
  o ← objs w !! x;
  Some (mkWorld (<[x := mk None (mDeleter o)]> (objs w))
                (call (mDeleter o) (mPtr o) (live w))).

(** [friend void swap(ptr1, ptr2)]: [std::swap(ptr1.mPtr, ptr2.mPtr);]
    [std::swap(ptr1.mDeleter, ptr2.mDeleter);], each [std::swap(a, b)] being
    [tmp = a; a = b; b = tmp]. *)
Definition swap (w : world) (x y : nat) : option world :=
  ox ← objs w !! x;
  let tmp := mPtr ox in
  oy ← objs w !! y;
  let os1 := <[x := mk (mPtr oy) (mDeleter ox)]> (objs w) in
  oy1 ← os1 !! y;
  let os2 := <[y := mk tmp (mDeleter oy1)]> os1 in
  ox2 ← os2 !! x;
  let tmpd := mDeleter ox2 in
  oy2 ← os2 !! y;
  let os3 := <[x := mk (mPtr ox2) (mDeleter oy2)]> os2 in
  oy3 ← os3 !! y;
  Some (mkWorld (<[y := mk (mPtr oy3) tmpd]> os3) (live w)).

(** The converting move constructor
    [customUniquePointer(customUniquePointer<U, E>&& u)], constructing
    [this]: [mPtr{u.release()}, mDeleter{std::forward<E>(u.get_deleter())}]. *)
Definition move_ctor_from (w : world) (this u : nat) : option world :=
  match objs w !! this with
  | Some _ => None
  | None =>
      '(p, w1) ← release w u;
      o ← objs w1 !! u;
      Some (mkWorld (<[this := mk p (mDeleter o)]> (objs w1)) (live w1))
  end.

(** [make_unique<T>(args...)]: [customUniquePointer<T>(new T(args...))],
    constructing object [x]; [a] is the allocation [new] returns, which is
    not live before. *)
Definition make_unique (w : world) (x a : nat) : option world :=
  if decide (a ∈ live w) then None
  else ctor (mkWorld (objs w) ({[a]} ∪ live w)) x (Some a).

(** The operations of the class on the objects of a program. *)
Inductive op : Type :=
| MakeUnique (x a : nat)
| MoveCtor (this other : nat)
| MoveCtorFrom (this u : nat)
| MoveAssign (this other : nat)
| AssignNull (x : nat)
| Release (x : nat)
| Swap (x y : nat)
| Dtor (x : nat).

Definition exec (w : world) (o : op) : option world :=
  match o with
  | MakeUnique x a => make_unique w x a
  | MoveCtor this other => move_ctor w this other
  | MoveCtorFrom this u => move_ctor_from w this u
  | MoveAssign this other => move_assign w this other
  | AssignNull x => assign_null w x
  | Release x => snd <$> release w x
  | Swap x y => swap w x y
  | Dtor x => dtor w x
  end.

(** A sequence of operations, in order. *)
Fixpoint run (w : world) (os : list op) : option world :=
  match os with
  | [] => Some w
  | o :: os => w' ← exec w o; run w' os
  end.

(** No move assignment of an object to itself. *)
Definition no_self_move (o : op) : Prop :=
  match o with
  | MoveAssign this other => this <> other
  | _ => True
  end.

#[global] Instance no_self_move_dec o : Decision (no_self_move o).
Proof. destruct o; cbn; apply _. Defined.

(** Unique ownership: no allocation is held by two objects, every
    allocation held is live, and the deleters are [std::default_delete]. *)
Definition owns (w : world) : Prop :=
  (forall x y ox oy a,
      objs w !! x = Some ox -> objs w !! y = Some oy ->
      mPtr ox = Some a -> mPtr oy = Some a -> x = y) /\
  (forall x ox a, objs w !! x = Some ox -> mPtr ox = Some a -> a ∈ live w) /\
  (forall x ox, objs w !! x = Some ox -> mDeleter ox = default_delete).

End UniquePtr.

(** ** [profiling_dp_fibonacci.cpp] *)

Module Fibonacci.

(** [make_filled_array<T, N>(value)]: an array of [N] copies of [value]. *)
Definition make_filled_array (N : nat) (value : Z) : list Z := replicate N value.

(** The global [std::array<long long, 501> dp], filled with [-1]. *)
Definition dp_init : list Z := make_filled_array 501 (-1).

(** [long long fibonacci(long long n)], threading the global [dp].
    [std::array::operator[]] does not check its index. *)
Fixpoint fibonacci (fuel : nat) (n : Z) (dp : list Z) : outcome (Z * list Z) :=
  match fuel with
  | O => Diverge
  | S fuel =>
      if n <=? 2 then Done (1, dp)
      else
        match vec_at dp n with
        | None => Fault
        | Some m =>
            if negb (m =? -1) then Done (m, dp)
            else
              match fibonacci fuel (n - 1) dp with
              | Done (a, dp1) =>
                  match fibonacci fuel (n - 2) dp1 with
                  | Done (b, dp2) =>
                      match vec_at dp2 n with
                      | Some _ =>
                          let dp3 := <[Z.to_nat n := ll_add a b]> dp2 in
                          match vec_at dp3 n with
                          | Some r => Done (r, dp3)
                          | None => Fault
                          end
                      | None => Fault
                      end
                  | Fault => Fault
                  | Diverge => Diverge
                  end
              | Fault => Fault
              | Diverge => Diverge
              end
        end
  end.

(** The calls [fibonacci(n)] for the [n] of a list, in order, from the
    memo [dp]: the memo they leave. *)
Fixpoint calls (fuel : nat) (ns : list Z) (dp : list Z) : outcome (list Z) :=
  match ns with
  | [] => Done dp
  | n :: ns =>
      match fibonacci fuel n dp with
      | Done (_, dp') => calls fuel ns dp'
      | Fault => Fault
      | Diverge => Diverge
      end
  end.

(** The Fibonacci numbers [F 0 = 0], [F 1 = 1], [F (n + 2) = F n + F (n + 1)]. *)
Fixpoint fib_pair (n : nat) : Z * Z :=
  match n with
  | O => (0, 1)
  | S k => let '(a, b) := fib_pair k in (b, a + b)
  end.

Definition F (n : nat) : Z := (fib_pair n).1.

(** Every entry of the memo is unset or the Fibonacci number of its index
    in [long long] arithmetic. *)
Definition dp_ok (dp : list Z) : Prop :=
  length dp = 501%nat /\
  forall i m, dp !! i = Some m -> m = -1 \/ m = ll_wrap (F i).

(** An argument the memo has an entry for. *)
Definition in_memo (n : Z) : Prop := 1 <= n <= 500.

#[global] Instance in_memo_dec n : Decision (in_memo n).
Proof. unfold in_memo. apply _. Defined.

End Fibonacci.

(** ** Specification vocabulary *)

(** The elements [a[l..r]], both ends included; empty when [l > r]. *)
Definition range_of (a : list Z) (l r : Z) : list Z :=
  take (Z.to_nat (r - l + 1)) (drop (Z.to_nat l) a).

(** The aggregate of a list under the code's combine operation. *)
Definition ll_sum (xs : list Z) : Z := foldr ll_add 0 xs.

(** The exact sum of a list. *)
Definition exact_sum (xs : list Z) : Z := foldr Z.add 0 xs.

(** The array a tree stands for after [update(pos, val)]. *)
Definition arr_set (a : list Z) (pos val : Z) : list Z := <[Z.to_nat pos := val]> a.

(** The array a tree stands for after the updates [ops] on [a]. *)
Definition current (a : list Z) (ops : list (Z * Z)) : list Z :=
  foldl (fun a p => arr_set a p.1 p.2) a ops.

(** A well-formed call [update(pos, val)] on a tree over [0, n-1]. *)
Definition valid_op (n : Z) (p : Z * Z) : Prop :=
  0 <= p.1 <= n - 1 /\ is_int p.2.

(** Slot [w] lies in the subtree rooted at slot [v]. *)
Inductive desc (v : Z) : Z -> Prop :=
| desc_self : desc v v
| desc_left w : desc v w -> desc v (2 * w)
| desc_right w : desc v w -> desc v (2 * w + 1).

(** Slot [v] covers [tl, tr] in the decomposition of [0, n-1]. *)
Inductive covers (n : Z) : Z -> Z -> Z -> Prop :=
| covers_root : covers n 1 0 (n - 1)
| covers_left v tl tr :
    covers n v tl tr -> tl < tr -> covers n (2 * v) tl (mid tl tr)
| covers_right v tl tr :
    covers n v tl tr -> tl < tr -> covers n (2 * v + 1) (mid tl tr + 1) tr.

(** The invariant at one slot: a leaf holds the array value, an internal
    slot the combination of its two children. *)
Definition slot_ok (t a : list Z) (v tl tr : Z) : Prop :=
  if tl =? tr then
    exists x, vec_at t v = Some x /\ vec_at a tl = Some x
  else
    exists x y, vec_at t (2 * v) = Some x /\ vec_at t (2 * v + 1) = Some y /\
                vec_at t v = Some (ll_add x y).

(** The invariant on the whole subtree below slot [v] covering [tl, tr]. *)
Inductive node_ok (t a : list Z) : Z -> Z -> Z -> Prop :=
| node_leaf v tl x :
    vec_at t v = Some x -> vec_at a tl = Some x -> node_ok t a v tl tl
| node_inner v tl tr x y :
    tl < tr ->
    node_ok t a (2 * v) tl (mid tl tr) ->
    node_ok t a (2 * v + 1) (mid tl tr + 1) tr ->
    vec_at t (2 * v) = Some x ->
    vec_at t (2 * v + 1) = Some y ->
    vec_at t v = Some (ll_add x y) ->
    node_ok t a v tl tr.

(** [s'] is [s] after more accesses, all of them to slots satisfying [Q]. *)
Definition extends (Q : Z -> Prop) (s s' : SegmentTree) : Prop :=
  exists new, touched s' = new ++ touched s /\ Forall Q new.

(** Slot numbers inside a storage of [4 * n] slots, slot 0 unused. *)
Definition in_storage (n : Z) (i : Z) : Prop := 1 <= i < 4 * n.

(** What holds of every tree over an array [a] of [n] elements. *)
Record tree_inv (n : Z) (a : list Z) (s : SegmentTree) : Prop := mk_tree_inv {
  inv_n : 1 <= n;
  inv_arr : Z.of_nat (length a) = n;
  inv_len : Z.of_nat (length (tree s)) = 4 * n;
  inv_node : node_ok (tree s) a 1 0 (n - 1);
  inv_touched : Forall (in_storage n) (touched s)
}.

(** The nearest position inside [lo, hi]. *)
Definition clamp (lo hi pos : Z) : Z := Z.max lo (Z.min pos hi).

(** The slots of a storage [t], slot 0 left out. *)
Definition slot_of (t : list Z) (i : Z) : Prop := 1 <= i < Z.of_nat (length t).

(** The side conditions are decidable. *)
#[global] Instance is_ll_dec z : Decision (is_ll z).
Proof. unfold is_ll. apply _. Defined.

#[global] Instance is_int_dec z : Decision (is_int z).
Proof. unfold is_int. apply _. Defined.

#[global] Instance valid_op_dec n p : Decision (valid_op n p).
Proof. unfold valid_op. apply _. Defined.

(** ** 64-bit arithmetic *)

Lemma ll_wrap_id z : is_ll z -> ll_wrap z = z.
Proof.
  unfold is_ll, ll_min, ll_max, ll_wrap. intros H.
  rewrite Z.mod_small by lia. lia.
Qed.

Lemma ll_wrap_is_ll z : is_ll (ll_wrap z).
Proof.
  unfold is_ll, ll_min, ll_max, ll_wrap.
  pose proof (Z.mod_pos_bound (z + 2 ^ 63) (2 ^ 64)). lia.
Qed.

Lemma ll_wrap_add_l a b : ll_wrap (ll_wrap a + b) = ll_wrap (a + b).
Proof.
  unfold ll_wrap.
  replace ((a + 2 ^ 63) mod 2 ^ 64 - 2 ^ 63 + b + 2 ^ 63)
    with ((a + 2 ^ 63) mod 2 ^ 64 + b) by lia.
  rewrite Zplus_mod_idemp_l. do 2 f_equal. lia.
Qed.

Lemma ll_wrap_add_r a b : ll_wrap (a + ll_wrap b) = ll_wrap (a + b).
Proof. rewrite (Z.add_comm a), ll_wrap_add_l. f_equal. lia. Qed.

Lemma is_int_is_ll z : is_int z -> is_ll z.
Proof. unfold is_int, is_ll, int_min, int_max, ll_min, ll_max. lia. Qed.

Lemma ll_sum_wrap xs : ll_sum xs = ll_wrap (exact_sum xs).
Proof.
  induction xs as [|x xs IH]; [reflexivity|].
  change (ll_sum (x :: xs)) with (ll_add x (ll_sum xs)).
  rewrite IH. unfold ll_add. apply ll_wrap_add_r.
Qed.

Lemma ll_sum_exact xs : is_ll (exact_sum xs) -> ll_sum xs = exact_sum xs.
Proof. intros H. rewrite ll_sum_wrap. by apply ll_wrap_id. Qed.

Lemma exact_sum_app xs ys : exact_sum (xs ++ ys) = exact_sum xs + exact_sum ys.
Proof.
  induction xs as [|x xs IH]; [done|].
  change (x + exact_sum (xs ++ ys) = x + exact_sum xs + exact_sum ys).
  rewrite IH. lia.
Qed.

Lemma ll_sum_app xs ys : ll_sum (xs ++ ys) = ll_add (ll_sum xs) (ll_sum ys).
Proof.
  rewrite !ll_sum_wrap, exact_sum_app. unfold ll_add.
  by rewrite ll_wrap_add_l, ll_wrap_add_r.
Qed.

Lemma ll_sum_single x : is_ll x -> ll_sum [x] = x.
Proof.
  intros H. change (ll_add x 0 = x).
  unfold ll_add. rewrite Z.add_0_r. by apply ll_wrap_id.
Qed.

(** ** Vectors *)

Lemma vec_at_Some (vec : list Z) i x :
  vec_at vec i = Some x -> 0 <= i < Z.of_nat (length vec).
Proof.
  unfold vec_at. destruct (Z.leb_spec 0 i) as [Hi|Hi]; [|done].
  intros Hx%lookup_lt_Some. lia.
Qed.

Lemma vec_at_lookup (vec : list Z) i :
  0 <= i -> vec_at vec i = vec !! Z.to_nat i.
Proof. unfold vec_at. intros H. destruct (Z.leb_spec 0 i) as [Hi|Hi]; [done | lia]. Qed.

Lemma vec_at_is_Some (vec : list Z) i :
  0 <= i < Z.of_nat (length vec) -> is_Some (vec_at vec i).
Proof.
  intros H. rewrite vec_at_lookup by lia. apply lookup_lt_is_Some. lia.
Qed.

Lemma vec_at_insert_eq (vec : list Z) i x y :
  vec_at vec i = Some y -> vec_at (<[Z.to_nat i := x]> vec) i = Some x.
Proof.
  intros H. pose proof (vec_at_Some _ _ _ H).
  rewrite vec_at_lookup by lia. apply list_lookup_insert_eq. lia.
Qed.

Lemma vec_at_insert_ne (vec : list Z) i j x :
  0 <= i -> i <> j -> vec_at (<[Z.to_nat i := x]> vec) j = vec_at vec j.
Proof.
  intros Hi Hne. unfold vec_at. destruct (Z.leb_spec 0 j) as [Hj|Hj]; [|done].
  apply list_lookup_insert_ne. lia.
Qed.

Lemma range_of_empty a l r : r < l -> range_of a l r = [].
Proof. intros H. unfold range_of. by replace (Z.to_nat (r - l + 1)) with 0%nat by lia. Qed.

Lemma range_of_single a i x : vec_at a i = Some x -> range_of a i i = [x].
Proof.
  intros H. pose proof (vec_at_Some _ _ _ H). rewrite vec_at_lookup in H by lia.
  unfold range_of. replace (Z.to_nat (i - i + 1)) with 1%nat by lia.
  rewrite <- (take_drop_middle _ _ _ H) at 1.
  rewrite drop_app_length'; [done|]. rewrite length_take. apply lookup_lt_Some in H. lia.
Qed.

Lemma range_of_app a l m r :
  0 <= l -> l <= m + 1 -> m <= r ->
  range_of a l r = range_of a l m ++ range_of a (m + 1) r.
Proof.
  intros H0 Hl Hr. unfold range_of.
  replace (Z.to_nat (r - l + 1)) with (Z.to_nat (m - l + 1) + Z.to_nat (r - (m + 1) + 1))%nat by lia.
  rewrite <- take_take_drop. f_equal. rewrite drop_drop. do 2 f_equal. lia.
Qed.

(** The split [sum] makes at a midpoint [m]. *)
Lemma range_of_split a l r m :
  0 <= l -> l <= r ->
  range_of a l r = range_of a l (Z.min r m) ++ range_of a (Z.max l (m + 1)) r.
Proof.
  intros H0 Hlr.
  destruct (Z.le_gt_cases r m) as [Hrm|Hrm].
  - rewrite Z.min_l by lia. rewrite (range_of_empty a (Z.max l (m + 1)) r) by lia.
    by rewrite app_nil_r.
  - rewrite Z.min_r by lia. destruct (Z.le_gt_cases l m) as [Hlm|Hlm].
    + rewrite Z.max_r by lia. apply range_of_app; lia.
    + rewrite Z.max_l by lia. by rewrite (range_of_empty a l m) by lia.
Qed.

Lemma mid_bounds tl tr : tl < tr -> tl <= mid tl tr < tr.
Proof.
  intros H. unfold mid.
  pose proof (Z.quot_div_nonneg (tr - tl) 2 ltac:(lia) ltac:(lia)) as Hq.
  rewrite Hq. pose proof (Z.div_pos (tr - tl) 2 ltac:(lia) ltac:(lia)).
  pose proof (Z.mul_div_le (tr - tl) 2 ltac:(lia)). lia.
Qed.

Lemma mid_range tl tr : tl <= tr -> tl <= mid tl tr <= tr.
Proof.
  intros H. destruct (Z.eq_dec tl tr) as [->|Hne].
  - unfold mid. rewrite Z.sub_diag. change (0 ÷ 2) with 0. lia.
  - pose proof (mid_bounds tl tr ltac:(lia)). lia.
Qed.

(** The children of a slot covering [k + 1] leaves cover at most [k/2 + 1]. *)
Lemma mid_halves tl tr :
  tl < tr ->
  2 * (mid tl tr - tl) <= tr - tl /\ 2 * (tr - (mid tl tr + 1)) <= tr - tl.
Proof.
  intros H. unfold mid.
  rewrite (Z.quot_div_nonneg (tr - tl) 2) by lia.
  pose proof (Z.div_mod (tr - tl) 2 ltac:(lia)).
  pose proof (Z.mod_pos_bound (tr - tl) 2 ltac:(lia)). lia.
Qed.

(** ** Subtrees *)

Lemma desc_ge v w : 1 <= v -> desc v w -> v <= w.
Proof. intros Hv. induction 1; lia. Qed.

Lemma desc_child_l v w : desc (2 * v) w -> desc v w.
Proof. induction 1; [apply desc_left, desc_self | by apply desc_left | by apply desc_right]. Qed.

Lemma desc_child_r v w : desc (2 * v + 1) w -> desc v w.
Proof. induction 1; [apply desc_right, desc_self | by apply desc_left | by apply desc_right]. Qed.

Lemma desc_inv v w :
  desc v w -> w = v \/ exists u, desc v u /\ (w = 2 * u \/ w = 2 * u + 1).
Proof. destruct 1; eauto. Qed.

(** The slots above [w] form a chain. *)
Lemma desc_chain a b w : 1 <= a -> a <= b -> desc a w -> desc b w -> desc a b.
Proof.
  intros Ha Hab Haw Hbw. induction Hbw as [|w Hbw IH|w Hbw IH]; [done| |].
  - apply IH. pose proof (desc_ge b w ltac:(lia) Hbw).
    destruct (desc_inv _ _ Haw) as [Heq|(u & Hu & [Heq|Heq])]; [lia| |lia].
    by replace w with u by lia.
  - apply IH. pose proof (desc_ge b w ltac:(lia) Hbw).
    destruct (desc_inv _ _ Haw) as [Heq|(u & Hu & [Heq|Heq])]; [lia|lia|].
    by replace w with u by lia.
Qed.

Lemma desc_disjoint v w : 1 <= v -> desc (2 * v) w -> desc (2 * v + 1) w -> False.
Proof.
  intros Hv Hl Hr.
  pose proof (desc_chain (2 * v) (2 * v + 1) w ltac:(lia) ltac:(lia) Hl Hr) as Hc.
  destruct (desc_inv _ _ Hc) as [?|(u & Hu & [Heq|Heq])]; [lia|lia|].
  pose proof (desc_ge (2 * v) u ltac:(lia) Hu). lia.
Qed.

Lemma not_desc_child_l v : 1 <= v -> ~ desc (2 * v) v.
Proof. intros Hv Hd. pose proof (desc_ge (2 * v) v ltac:(lia) Hd). lia. Qed.

Lemma not_desc_child_r v : 1 <= v -> ~ desc (2 * v + 1) v.
Proof. intros Hv Hd. pose proof (desc_ge (2 * v + 1) v ltac:(lia) Hd). lia. Qed.

(** ** The invariant *)

Lemma node_ok_root t a v tl tr : node_ok t a v tl tr -> is_Some (vec_at t v).
Proof. destruct 1; eauto. Qed.

Lemma node_ok_le t a v tl tr : node_ok t a v tl tr -> tl <= tr.
Proof. destruct 1; lia. Qed.

(** The invariant below [v] only depends on the slots below [v] and on the
    array elements [v] covers. *)
Lemma node_ok_ext t a t' a' v tl tr :
  node_ok t a v tl tr ->
  (forall w, desc v w -> vec_at t' w = vec_at t w) ->
  (forall i, tl <= i <= tr -> vec_at a' i = vec_at a i) ->
  node_ok t' a' v tl tr.
Proof.
  induction 1 as [v tl x Hv Ha|v tl tr x y Hlt Hl IHl Hr IHr Hx Hy Hv]; intros Ht Harr.
  - apply (node_leaf _ _ _ _ x).
    + rewrite Ht; [done | apply desc_self].
    + rewrite Harr; [done | lia].
  - pose proof (mid_bounds _ _ Hlt).
    apply (node_inner _ _ _ _ _ x y); [done| | | | |].
    + apply IHl; [intros w Hw; apply Ht; by apply desc_child_l | intros i Hi; apply Harr; lia].
    + apply IHr; [intros w Hw; apply Ht; by apply desc_child_r | intros i Hi; apply Harr; lia].
    + rewrite Ht; [done | apply desc_left, desc_self].
    + rewrite Ht; [done | apply desc_right, desc_self].
    + rewrite Ht; [done | apply desc_self].
Qed.

(** Under the invariant a slot holds the aggregate of the range it covers. *)
Lemma node_ok_value t a v tl tr :
  node_ok t a v tl tr -> 0 <= tl -> Forall is_ll a ->
  vec_at t v = Some (ll_sum (range_of a tl tr)).
Proof.
  intros Hn Htl Hll.
  induction Hn as [v tl x Hv Ha|v tl tr x y Hlt Hl IHl Hr IHr Hx Hy Hv].
  - rewrite (range_of_single _ _ _ Ha), ll_sum_single; [done|].
    rewrite vec_at_lookup in Ha by lia.
    by eapply (proj1 (Forall_lookup _ _) Hll).
  - pose proof (mid_bounds _ _ Hlt).
    rewrite (range_of_app a tl (mid tl tr) tr) by lia.
    rewrite ll_sum_app, Hv.
    rewrite IHl in Hx by lia. rewrite IHr in Hy by lia. congruence.
Qed.

Lemma node_ok_covers t a n v tl tr :
  node_ok t a 1 0 (n - 1) -> covers n v tl tr -> node_ok t a v tl tr.
Proof.
  intros Hroot. induction 1 as [|v tl tr Hc IH Hlt|v tl tr Hc IH Hlt]; [done| |].
  - inversion IH; subst; [lia | done].
  - inversion IH; subst; [lia | done].
Qed.

Lemma node_ok_slot t a v tl tr : node_ok t a v tl tr -> slot_ok t a v tl tr.
Proof.
  unfold slot_ok. destruct 1 as [v tl x Hv Ha|v tl tr x y Hlt Hl Hr Hx Hy Hv].
  - rewrite Z.eqb_refl. eauto.
  - destruct (Z.eqb_spec tl tr); [lia|]. eauto.
Qed.

(** ** Access traces *)

Lemma extends_refl Q s : extends Q s s.
Proof. by exists []. Qed.

Lemma extends_trans Q s1 s2 s3 : extends Q s1 s2 -> extends Q s2 s3 -> extends Q s1 s3.
Proof.
  intros (n1 & E1 & F1) (n2 & E2 & F2). exists (n2 ++ n1). split.
  - by rewrite E2, E1, app_assoc.
  - by apply Forall_app.
Qed.

Lemma extends_touch (Q : Z -> Prop) s t i : Q i -> extends Q s (mkSegmentTree t (i :: touched s)).
Proof. intros Hi. exists [i]. split; [done | by constructor]. Qed.

Lemma extends_Forall Q s s' : extends Q s s' -> Forall Q (touched s) -> Forall Q (touched s').
Proof. intros (new & -> & Hn) Hs. by apply Forall_app. Qed.

Lemma extends_mono (Q Q' : Z -> Prop) s s' :
  (forall i, Q i -> Q' i) -> extends Q s s' -> extends Q' s s'.
Proof. intros HQ (new & E & Hn). exists new. split; [done | by eapply Forall_impl]. Qed.

(** ** Running the monad *)

Lemma bind_Done {A B : Type} (m : M A) (k : A -> M B) s a s1 :
  m s = Done (a, s1) -> (m ≫= k) s = k a s1.
Proof. intros H. unfold mbind, M_bind. by rewrite H. Qed.

Lemma bind_Diverge {A B : Type} (m : M A) (k : A -> M B) s :
  m s = Diverge -> (m ≫= k) s = Diverge.
Proof. intros H. unfold mbind, M_bind. by rewrite H. Qed.

Lemma tree_read_Done i x s :
  vec_at (tree s) i = Some x ->
  tree_read i s = Done (x, mkSegmentTree (tree s) (i :: touched s)).
Proof. intros H. unfold tree_read. by rewrite H. Qed.

Lemma tree_write_Done i x y s :
  vec_at (tree s) i = Some y ->
  tree_write i x s = Done (tt, mkSegmentTree (<[Z.to_nat i := x]> (tree s)) (i :: touched s)).
Proof. intros H. unfold tree_write. by rewrite H. Qed.

Lemma arr_read_Done arr i x s : vec_at arr i = Some x -> arr_read arr i s = Done (x, s).
Proof. intros H. unfold arr_read. by rewrite H. Qed.

(** ** [build] *)

(** [build] at a slot [v] of depth [log2 P] covering [tl, tr] returns,
    establishes the invariant below [v], writes below [v] only and stays
    inside a storage of [4 * N] slots. *)
Lemma build_spec N arr fuel : forall v tl tr P s,
  0 <= tl -> tl <= tr -> tr < Z.of_nat (length arr) ->
  tr - tl < Z.of_nat fuel ->
  1 <= P -> P <= v < 2 * P -> P < 2 * N -> (tr - tl) * P < N ->
  4 * N <= Z.of_nat (length (tree s)) ->
  exists s', build fuel arr v tl tr s = Done (tt, s') /\
             length (tree s') = length (tree s) /\
             node_ok (tree s') arr v tl tr /\
             (forall w, ~ desc v w -> vec_at (tree s') w = vec_at (tree s) w) /\
             extends (in_storage N) s s'.
Proof.
  induction fuel as [|fuel IH]; intros v tl tr P s Htl Hle Htr Hfuel HP Hv HPN Hk Hlen; [lia|].
  cbn [build]. destruct (Z.eqb_spec tl tr) as [->|Hne].
  - destruct (vec_at_is_Some arr tr ltac:(lia)) as [x Hx].
    destruct (vec_at_is_Some (tree s) v ltac:(lia)) as [y Hy].
    eexists. split; [|split; [|split; [|split]]].
    + erewrite bind_Done by (by apply arr_read_Done). by eapply tree_write_Done.
    + cbn. apply length_insert.
    + cbn. apply (node_leaf _ _ _ _ x); [by eapply vec_at_insert_eq | done].
    + cbn. intros w Hw. apply vec_at_insert_ne; [lia|]. intros ->. apply Hw, desc_self.
    + apply extends_touch. unfold in_storage. lia.
  - pose proof (mid_bounds tl tr ltac:(lia)) as Hm.
    pose proof (mid_halves tl tr ltac:(lia)) as [Hhl Hhr].
    assert (P < N) as HPlt by nia.
    replace (v * 2) with (2 * v) by lia.
    destruct (IH (2 * v) tl (mid tl tr) (2 * P) s) as (s1 & E1 & L1 & N1 & F1 & X1);
      [lia.. | nia | lia |].
    destruct (IH (2 * v + 1) (mid tl tr + 1) tr (2 * P) s1) as (s2 & E2 & L2 & N2 & F2 & X2);
      [lia.. | nia | lia |].
    assert (node_ok (tree s2) arr (2 * v) tl (mid tl tr)) as N1'.
    { eapply node_ok_ext; [exact N1 | | done].
      intros w Hw. apply F2. intros Hw'. eapply (desc_disjoint v w); [lia | done..]. }
    destruct (node_ok_root _ _ _ _ _ N1') as [x Hx].
    destruct (node_ok_root _ _ _ _ _ N2) as [y Hy].
    destruct (vec_at_is_Some (tree s2) v ltac:(lia)) as [z Hz].
    eexists. split; [|split; [|split; [|split]]].
    + erewrite bind_Done by exact E1. erewrite bind_Done by exact E2.
      erewrite bind_Done by (by apply tree_read_Done).
      erewrite bind_Done by (by apply tree_read_Done).
      by eapply tree_write_Done.
    + cbn. rewrite length_insert. lia.
    + cbn. apply (node_inner _ _ _ _ _ x y); [lia| | | | |].
      * eapply node_ok_ext; [exact N1' | | done].
        intros w Hw. apply vec_at_insert_ne; [lia|]. intros ->.
        by apply (not_desc_child_l w ltac:(lia)).
      * eapply node_ok_ext; [exact N2 | | done].
        intros w Hw. apply vec_at_insert_ne; [lia|]. intros ->.
        by apply (not_desc_child_r w ltac:(lia)).
      * rewrite vec_at_insert_ne by lia. done.
      * rewrite vec_at_insert_ne by lia. done.
      * by eapply vec_at_insert_eq.
    + cbn. intros w Hw. rewrite vec_at_insert_ne.
      * rewrite F2, F1; [done | |]; intros Hd; apply Hw;
          [by apply desc_child_l | by apply desc_child_r].
      * lia.
      * intros ->. apply Hw, desc_self.
    + eapply extends_trans; [exact X1|]. eapply extends_trans; [exact X2|].
      exists [v; 2 * v + 1; 2 * v]. split; [done|].
      unfold in_storage. repeat constructor; lia.
Qed.

(** ** [sum] *)

Lemma slot_of_Some t i x : 1 <= i -> vec_at t i = Some x -> slot_of t i.
Proof. intros Hi H%vec_at_Some. unfold slot_of. lia. Qed.

(** On a subtree satisfying the invariant, [sum] returns for every
    [tl <= l] and [r <= tr], leaves the tree as it is, and its value is the
    aggregate of [a[l..r]]. *)
Lemma sum_spec t a v tl tr :
  node_ok t a v tl tr -> forall fuel l r s,
  tree s = t -> 1 <= v -> 0 <= tl -> tl <= l -> r <= tr ->
  tr - tl < Z.of_nat fuel ->
  exists x s', sum fuel v tl tr l r s = Done (x, s') /\
               tree s' = t /\
               extends (slot_of t) s s' /\
               (Forall is_ll a -> x = ll_sum (range_of a l r)).
Proof.
  induction 1 as [v tl x Hv Ha|v tl tr x y Hlt Hl IHl Hr IHr Hx Hy Hv];
    intros [|fuel] l r s Hs H1 H0 Hl' Hr' Hfuel; try lia; cbn [sum];
    rewrite Z.gtb_ltb; destruct (Z.ltb_spec r l) as [Hrl|Hlr].
  - exists 0, s. repeat split; [done | apply extends_refl |].
    intros _. by rewrite range_of_empty.
  - assert (l = tl) as -> by lia. assert (r = tl) as -> by lia.
    rewrite Z.eqb_refl. cbn [andb].
    eexists _, _. split; [apply tree_read_Done; by rewrite Hs|].
    repeat split; [done | by eapply extends_touch, slot_of_Some |].
    intros Hll. rewrite (node_ok_value t a v tl tl) in Hv; [congruence | | done..].
    by apply (node_leaf _ _ _ _ x).
  - exists 0, s. repeat split; [done | apply extends_refl |].
    intros _. by rewrite range_of_empty.
  - pose proof (mid_bounds tl tr Hlt) as Hm.
    destruct (Z.eqb_spec l tl) as [->|Hne1]; [destruct (Z.eqb_spec r tr) as [->|Hne2]|]; cbn [andb].
    + eexists _, _. split; [apply tree_read_Done; by rewrite Hs|].
      repeat split; [done | by eapply extends_touch, slot_of_Some |].
      intros Hll.
      rewrite (node_ok_value t a v tl tr) in Hv; [congruence | | done..].
      by apply (node_inner _ _ _ _ _ x y).
    + destruct (IHl fuel tl (Z.min r (mid tl tr)) s) as (xl & s1 & E1 & T1 & X1 & V1); [done | lia..|].
      destruct (IHr fuel (Z.max tl (mid tl tr + 1)) r s1) as (xr & s2 & E2 & T2 & X2 & V2); [done | lia..|].
      eexists _, _. split; [erewrite bind_Done by exact E1; erewrite bind_Done by exact E2; reflexivity|].
      repeat split; [done | by eapply extends_trans |].
      intros Hll. rewrite V1, V2 by done. rewrite <- ll_sum_app.
      by rewrite <- range_of_split by lia.
    + destruct (IHl fuel l (Z.min r (mid tl tr)) s) as (xl & s1 & E1 & T1 & X1 & V1); [done | lia..|].
      destruct (IHr fuel (Z.max l (mid tl tr + 1)) r s1) as (xr & s2 & E2 & T2 & X2 & V2); [done | lia..|].
      eexists _, _. split; [erewrite bind_Done by exact E1; erewrite bind_Done by exact E2; reflexivity|].
      repeat split; [done | by eapply extends_trans |].
      intros Hll. rewrite V1, V2 by done. rewrite <- ll_sum_app.
      by rewrite <- range_of_split by lia.
Qed.

(** ** [update] *)

(** On a subtree satisfying the invariant, [update] at a position the
    subtree covers returns, re-establishes the invariant for the updated
    array, and writes below [v] only. *)
Lemma update_spec a pos val t v tl tr :
  node_ok t a v tl tr -> forall fuel s,
  tree s = t -> 1 <= v -> 0 <= tl -> tl <= pos <= tr ->
  tr - tl < Z.of_nat fuel ->
  exists s', update fuel v tl tr pos val s = Done (tt, s') /\
             length (tree s') = length t /\
             node_ok (tree s') (arr_set a pos val) v tl tr /\
             (forall w, ~ desc v w -> vec_at (tree s') w = vec_at t w) /\
             extends (slot_of t) s s'.
Proof.
  induction 1 as [v tl x Hv Ha|v tl tr x y Hlt Hl IHl Hr IHr Hx Hy Hv];
    intros [|fuel] s Hs H1 H0 Hpos Hfuel; try lia; cbn [update].
  - rewrite Z.eqb_refl. assert (pos = tl) as -> by lia. subst t.
    eexists. split; [by eapply tree_write_Done|]. cbn.
    split; [apply length_insert|]. split; [|split].
    + apply (node_leaf _ _ _ _ val); by eapply vec_at_insert_eq.
    + intros w Hw. apply vec_at_insert_ne; [lia|]. intros ->. apply Hw, desc_self.
    + by eapply extends_touch, slot_of_Some.
  - pose proof (mid_bounds tl tr Hlt) as Hm.
    destruct (Z.eqb_spec tl tr) as [?|_]; [lia|].
    assert (exists s1,
              (if pos <=? mid tl tr
               then update fuel (2 * v) tl (mid tl tr) pos val
               else update fuel (2 * v + 1) (mid tl tr + 1) tr pos val) s = Done (tt, s1) /\
              length (tree s1) = length t /\
              node_ok (tree s1) (arr_set a pos val) (2 * v) tl (mid tl tr) /\
              node_ok (tree s1) (arr_set a pos val) (2 * v + 1) (mid tl tr + 1) tr /\
              (forall w, ~ desc v w -> vec_at (tree s1) w = vec_at t w) /\
              vec_at (tree s1) v = vec_at t v /\
              extends (slot_of t) s s1) as (s1 & E1 & L1 & Nl & Nr & F1 & Hv1 & X1).
    { destruct (Z.leb_spec pos (mid tl tr)) as [Hp|Hp].
      - destruct (IHl fuel s) as (s1 & E1 & L1 & N1 & F1 & X1); [done | lia..|].
        exists s1. repeat split; [done | done | done | | | | done].
        + eapply node_ok_ext; [exact Hr | |].
          * intros w Hw. apply F1. intros Hw'. by apply (desc_disjoint v w ltac:(lia)).
          * intros i Hi. apply vec_at_insert_ne; lia.
        + intros w Hw. apply F1. intros Hd. by apply Hw, desc_child_l.
        + apply F1. by apply not_desc_child_l.
      - destruct (IHr fuel s) as (s1 & E1 & L1 & N1 & F1 & X1); [done | lia..|].
        exists s1. repeat split; [done | done | | done | | | done].
        + eapply node_ok_ext; [exact Hl | |].
          * intros w Hw. apply F1. intros Hw'. by apply (desc_disjoint v w ltac:(lia)).
          * intros i Hi. apply vec_at_insert_ne; lia.
        + intros w Hw. apply F1. intros Hd. by apply Hw, desc_child_r.
        + apply F1. by apply not_desc_child_r. }
    destruct (node_ok_root _ _ _ _ _ Nl) as [x' Hx'].
    destruct (node_ok_root _ _ _ _ _ Nr) as [y' Hy'].
    rewrite Hv in Hv1.
    pose proof (vec_at_Some _ _ _ Hv1) as Hvb.
    eexists. split; [|split; [|split; [|split]]].
    + erewrite bind_Done by exact E1.
      erewrite bind_Done by (by apply tree_read_Done).
      erewrite bind_Done by (by apply tree_read_Done).
      by eapply tree_write_Done.
    + cbn. rewrite length_insert. lia.
    + cbn. apply (node_inner _ _ _ _ _ x' y'); [lia| | | | |].
      * eapply node_ok_ext; [exact Nl | | done].
        intros w Hw. apply vec_at_insert_ne; [lia|]. intros ->.
        by apply (not_desc_child_l w ltac:(lia)).
      * eapply node_ok_ext; [exact Nr | | done].
        intros w Hw. apply vec_at_insert_ne; [lia|]. intros ->.
        by apply (not_desc_child_r w ltac:(lia)).
      * rewrite vec_at_insert_ne by lia. done.
      * rewrite vec_at_insert_ne by lia. done.
      * by eapply vec_at_insert_eq.
    + cbn. intros w Hw. rewrite vec_at_insert_ne; [by apply F1 | lia |].
      intros ->. apply Hw, desc_self.
    + eapply extends_trans; [exact X1|].
      exists [v; 2 * v + 1; 2 * v]. split; [done|].
      apply vec_at_Some in Hx', Hy'.
      unfold slot_of. repeat constructor; lia.
Qed.

(** ** The public operations *)

Lemma new_inv fuel arr :
  (1 <= length arr)%nat -> (length arr <= fuel)%nat ->
  exists s, SegmentTree_new fuel arr = Done s /\
            tree_inv (Z.of_nat (length arr)) arr s.
Proof.
  intros Hn Hfuel. unfold SegmentTree_new.
  set (s0 := mkSegmentTree (replicate (4 * length arr) 0) []).
  destruct (build_spec (Z.of_nat (length arr)) arr fuel 1 0 (Z.of_nat (length arr) - 1) 1 s0)
    as (s & E & L & Nd & _ & X); [try lia.. |].
  { subst s0. cbn. rewrite length_replicate. lia. }
  exists s. rewrite E. split; [done|].
  split; [lia | done | | done |].
  - rewrite L. subst s0. cbn. rewrite length_replicate. lia.
  - eapply extends_Forall; [exact X | subst s0; cbn; constructor].
Qed.

Lemma slot_of_in_storage n a s i : tree_inv n a s -> slot_of (tree s) i -> in_storage n i.
Proof. intros Hinv. unfold slot_of, in_storage. rewrite (inv_len _ _ _ Hinv). done. Qed.

Lemma update_inv fuel n a s pos val :
  tree_inv n a s -> 0 <= pos <= n - 1 -> n <= Z.of_nat fuel ->
  exists s', update_pos fuel n pos val s = Done (tt, s') /\
             tree_inv n (arr_set a pos val) s'.
Proof.
  intros Hinv Hpos Hfuel. pose proof Hinv as [Hn Ha Hlen Hnode Htouched].
  destruct (update_spec a pos val _ _ _ _ Hnode fuel s) as (s' & E & L & Nd & _ & X);
    [done | lia.. |].
  exists s'. split; [done|].
  split; [done | | | done |].
  - unfold arr_set. rewrite length_insert. done.
  - rewrite L. done.
  - eapply extends_Forall; [|exact Htouched].
    eapply extends_mono; [|exact X]. intros i. by apply slot_of_in_storage with a.
Qed.

Lemma updates_inv fuel n ops : forall a s,
  tree_inv n a s -> Forall (valid_op n) ops -> n <= Z.of_nat fuel ->
  exists s', updates fuel n ops s = Done (tt, s') /\
             tree_inv n (current a ops) s'.
Proof.
  induction ops as [|[pos val] ops IH]; intros a s Hinv Hops Hfuel.
  - exists s. done.
  - apply Forall_cons in Hops as [[Hpos _] Hops]. cbn in Hpos.
    destruct (update_inv fuel n a s pos val Hinv Hpos Hfuel) as (s1 & E1 & Hinv1).
    destruct (IH _ s1 Hinv1 Hops Hfuel) as (s' & E' & Hinv').
    exists s'. split; [|done].
    cbn [updates]. erewrite bind_Done by exact E1. done.
Qed.

(** Every tree the program can reach satisfies the invariant for the array
    it stands for. *)
Lemma tree_after_inv fuel arr ops :
  (1 <= length arr)%nat -> Forall (valid_op (Z.of_nat (length arr))) ops ->
  (length arr <= fuel)%nat ->
  exists s, tree_after fuel arr ops = Done s /\
            tree_inv (Z.of_nat (length arr)) (current arr ops) s.
Proof.
  intros Hn Hops Hfuel.
  destruct (new_inv fuel arr Hn Hfuel) as (s0 & E0 & Hinv0).
  destruct (updates_inv fuel _ ops arr s0 Hinv0 Hops ltac:(lia)) as (s & E & Hinv).
  exists s. unfold tree_after. rewrite E0, E. done.
Qed.

Lemma query_inv fuel n a s l r :
  tree_inv n a s -> 0 <= l -> r <= n - 1 -> n <= Z.of_nat fuel ->
  exists x s', query fuel n l r s = Done (x, s') /\
               tree s' = tree s /\
               Forall (in_storage n) (touched s') /\
               (Forall is_ll a -> x = ll_sum (range_of a l r)).
Proof.
  intros Hinv Hl Hr Hfuel. pose proof Hinv as [Hn Ha Hlen Hnode Htouched].
  destruct (sum_spec _ _ _ _ _ Hnode fuel l r s) as (x & s' & E & T & X & V);
    [done | lia.. |].
  exists x, s'. repeat split; [done | done | | done].
  eapply extends_Forall; [|exact Htouched].
  eapply extends_mono; [|exact X]. intros i. by apply slot_of_in_storage with a.
Qed.

Lemma arr_set_is_ll a pos val : Forall is_ll a -> is_ll val -> Forall is_ll (arr_set a pos val).
Proof. intros Ha Hv. unfold arr_set. by apply Forall_insert. Qed.

Lemma current_is_ll n ops : forall a,
  Forall is_ll a -> Forall (valid_op n) ops -> Forall is_ll (current a ops).
Proof.
  induction ops as [|[pos val] ops IH]; intros a Ha Hops; [done|].
  apply Forall_cons in Hops as [[_ Hval] Hops]. cbn in Hval.
  apply IH; [|done]. by apply arr_set_is_ll, is_int_is_ll.
Qed.

Lemma current_app a ops ops' : current a (ops ++ ops') = current (current a ops) ops'.
Proof. unfold current. apply foldl_app. Qed.

Lemma tree_inv_lookup n a s i : tree_inv n a s -> 0 <= i <= n - 1 -> is_Some (vec_at a i).
Proof. intros [Hn Ha _ _ _] Hi. apply vec_at_is_Some. lia. Qed.

Lemma query_value fuel n a s l r :
  tree_inv n a s -> Forall is_ll a -> 0 <= l -> r <= n - 1 -> n <= Z.of_nat fuel ->
  value (query fuel n l r s) = Done (ll_sum (range_of a l r)).
Proof.
  intros Hinv Hll Hl Hr Hfuel.
  destruct (query_inv fuel n a s l r Hinv Hl Hr Hfuel) as (x & s' & E & _ & _ & V).
  rewrite E. cbn. by rewrite V.
Qed.

Lemma query_point fuel n a s i x :
  tree_inv n a s -> Forall is_ll a -> vec_at a i = Some x -> n <= Z.of_nat fuel ->
  value (query fuel n i i s) = Done x.
Proof.
  intros Hinv Hll Hx Hfuel. pose proof (vec_at_Some _ _ _ Hx) as Hi.
  pose proof Hinv as [Hn Ha _ _ _].
  rewrite (query_value fuel n a) by (done || lia).
  rewrite (range_of_single _ _ _ Hx), ll_sum_single; [done|].
  rewrite vec_at_lookup in Hx by lia.
  by eapply (proj1 (Forall_lookup _ _) Hll).
Qed.

(** ** Calls outside the index range *)

(** [update] only compares [pos] with midpoints: a position outside the
    covered range acts as the nearest one inside. *)
Lemma update_clamp fuel val : forall v tl tr pos s,
  tl <= tr ->
  update fuel v tl tr pos val s = update fuel v tl tr (clamp tl tr pos) val s.
Proof.
  induction fuel as [|fuel IH]; intros v tl tr pos s Hle; [done|].
  cbn [update]. destruct (Z.eqb_spec tl tr) as [_|Hne]; [done|].
  pose proof (mid_bounds tl tr ltac:(lia)) as Hm.
  unfold mbind, M_bind.
  destruct (Z.leb_spec pos (mid tl tr)) as [Hp|Hp];
    destruct (Z.leb_spec (clamp tl tr pos) (mid tl tr)) as [Hc|Hc];
    try (unfold clamp in Hc; lia).
  - rewrite (IH (2 * v) tl (mid tl tr) pos) by lia.
    rewrite (IH (2 * v) tl (mid tl tr) (clamp tl tr pos)) by lia.
    replace (clamp tl (mid tl tr) (clamp tl tr pos)) with (clamp tl (mid tl tr) pos)
      by (unfold clamp; lia).
    done.
  - rewrite (IH (2 * v + 1) (mid tl tr + 1) tr pos) by lia.
    rewrite (IH (2 * v + 1) (mid tl tr + 1) tr (clamp tl tr pos)) by lia.
    replace (clamp (mid tl tr + 1) tr (clamp tl tr pos)) with (clamp (mid tl tr + 1) tr pos)
      by (unfold clamp; lia).
    done.
Qed.

(** [sum] with a left end below the covered range keeps descending into the
    left child and never returns. *)
Lemma sum_diverges fuel : forall v tl tr l r s,
  l < tl -> tl <= tr -> tl <= r -> sum fuel v tl tr l r s = Diverge.
Proof.
  induction fuel as [|fuel IH]; intros v tl tr l r s Hl Hle Hr; [done|].
  cbn [sum]. rewrite Z.gtb_ltb. destruct (Z.ltb_spec r l) as [?|_]; [lia|].
  destruct (Z.eqb_spec l tl) as [?|_]; [lia|]. cbn [andb].
  pose proof (mid_range tl tr Hle).
  apply bind_Diverge. apply IH; lia.
Qed.


(** ** The range of a query *)

Lemma range_of_length a l r :
  0 <= l -> l <= r + 1 -> r < Z.of_nat (length a) ->
  Z.of_nat (length (range_of a l r)) = r - l + 1.
Proof.
  intros Hl Hlr Hr. unfold range_of. rewrite length_take, length_drop. lia.
Qed.

Lemma range_of_lookup a l r k :
  0 <= l -> 0 <= k <= r - l ->
  range_of a l r !! Z.to_nat k = a !! Z.to_nat (l + k).
Proof.
  intros Hl Hk. unfold range_of.
  rewrite lookup_take_lt by lia. rewrite lookup_drop. f_equal. lia.
Qed.

(** ** Properties of the segment tree *)

(** C1.  For every array [arr] of [long long] values of length [n >= 1] and
    all [0 <= l <= r <= n-1], [query(l, r)] on the tree built from [arr]
    returns the aggregate of [arr[l..r]] under the code's addition, each
    element counted once; it is the exact sum whenever that sum is
    representable.
    The array is short enough for every node number to fit an [int]:
    [4 * n <= int_max]. *)
Theorem query_returns_range_sum (arr : list Z) (l r : Z) (fuel : nat) :
  4 * Z.of_nat (length arr) <= int_max ->
  (1 <= length arr)%nat -> Forall is_ll arr ->
  0 <= l -> l <= r -> r <= Z.of_nat (length arr) - 1 ->
  (length arr <= fuel)%nat ->
  exists s x,
    SegmentTree_new fuel arr = Done s /\
    value (query fuel (Z.of_nat (length arr)) l r s) = Done x /\
    x = ll_sum (range_of arr l r) /\
    (is_ll (exact_sum (range_of arr l r)) -> x = exact_sum (range_of arr l r)).
Proof.
  intros Hint Hn Hll Hl Hlr Hr Hfuel.
  destruct (new_inv fuel arr Hn Hfuel) as (s & E & Hinv).
  exists s, (ll_sum (range_of arr l r)). repeat split; [done | |].
  - apply (query_value fuel _ arr); (done || lia).
  - intros Hex. by apply ll_sum_exact.
Qed.

Lemma query_returns_range_sum_witness :
  exists s x,
    SegmentTree_new 6 [1; 3; 5; 7; 9; 11] = Done s /\
    value (query 6 (Z.of_nat (length [1; 3; 5; 7; 9; 11])) 1 4 s) = Done x /\
    x = ll_sum (range_of [1; 3; 5; 7; 9; 11] 1 4) /\
    (is_ll (exact_sum (range_of [1; 3; 5; 7; 9; 11] 1 4)) ->
     x = exact_sum (range_of [1; 3; 5; 7; 9; 11] 1 4)).
Proof.
  apply (query_returns_range_sum [1; 3; 5; 7; 9; 11] 1 4 6).
  - cbn. unfold int_max. lia.
  - cbn. lia.
  - by apply (bool_decide_unpack _).
  - lia.
  - lia.
  - cbn. lia.
  - cbn. lia.
Defined.

(** C2.  For every array of length [n >= 1], after construction and after
    any sequence of [update(pos, val)] calls with valid [pos], every
    internal slot [v] covering [tl, tr] satisfies
    [tree[v] = tree[2v] + tree[2v+1]] and every leaf slot holds the current
    value at its array position.
    The array is short enough for every node number to fit an [int]:
    [4 * n <= int_max]. *)
Theorem invariant_after_updates (arr : list Z) (ops : list (Z * Z)) (fuel : nat) :
  4 * Z.of_nat (length arr) <= int_max ->
  (1 <= length arr)%nat ->
  Forall (valid_op (Z.of_nat (length arr))) ops ->
  (length arr <= fuel)%nat ->
  exists s,
    tree_after fuel arr ops = Done s /\
    forall v tl tr, covers (Z.of_nat (length arr)) v tl tr ->
                    slot_ok (tree s) (current arr ops) v tl tr.
Proof.
  intros Hint Hn Hops Hfuel.
  destruct (tree_after_inv fuel arr ops Hn Hops Hfuel) as (s & E & Hinv).
  exists s. split; [done|]. intros v tl tr Hc.
  apply node_ok_slot. eapply node_ok_covers; [|exact Hc]. apply Hinv.
Qed.

Lemma invariant_after_updates_witness :
  exists s,
    tree_after 3 [4; 5; 6] [(0, 9); (2, -1)] = Done s /\
    forall v tl tr, covers (Z.of_nat (length [4; 5; 6])) v tl tr ->
                    slot_ok (tree s) (current [4; 5; 6] [(0, 9); (2, -1)]) v tl tr.
Proof.
  apply (invariant_after_updates [4; 5; 6] [(0, 9); (2, -1)] 3).
  - cbn. unfold int_max. lia.
  - cbn. lia.
  - by apply (bool_decide_unpack _).
  - cbn. lia.
Defined.

(** C3, as stated, fails.  On the tree built from [[1; 3; 5]],
    [update(3, 100)] (that is [pos == n]) returns normally and has
    overwritten the last element; on the tree built from [[7]],
    [query(0, 1)] reads beyond the four slots of the vector; and
    [query(-1, 1)] on the first tree does not return. *)
Lemma out_of_range_not_rejected :
  (exists s s',
      SegmentTree_new 3 [1; 3; 5] = Done s /\
      update_pos 3 3 3 100 s = Done (tt, s') /\
      tree s' <> tree s /\
      value (query 3 3 2 2 s') = Done 100) /\
  (exists s,
      SegmentTree_new 1 [7] = Done s /\
      length (tree s) = 4%nat /\
      value (query 3 1 0 1 s) = Fault) /\
  (exists s,
      SegmentTree_new 3 [1; 3; 5] = Done s /\
      value (query 64 3 (-1) 1 s) = Diverge).
Proof.
  split; [|split].
  - eexists _, _. split; [vm_compute; reflexivity|].
    split; [vm_compute; reflexivity|]. split; [|vm_compute; reflexivity].
    cbn. discriminate.
  - eexists. split; [vm_compute; reflexivity|]. split; vm_compute; reflexivity.
  - eexists. split; vm_compute; reflexivity.
Qed.

(** C3, amended.  The code checks no index and raises no error.  On every
    tree over [0, n-1], [update(pos, val)] with [pos] outside [0, n-1]
    returns normally: it acts exactly as [update] at the nearest valid
    position ([0] for [pos < 0], [n-1] for [pos > n-1]) and touches only
    slots in [1, 4n).  [query(l, r)] with [l < 0 <= r] never returns.
    The arguments [pos], [l] and [r] are [int] values.
    The array is short enough for every node number to fit an [int]:
    [4 * n <= int_max]. *)
Theorem out_of_range_calls (arr : list Z) (ops : list (Z * Z)) (pos val : Z) (fuel : nat) :
  4 * Z.of_nat (length arr) <= int_max ->
  (1 <= length arr)%nat ->
  Forall (valid_op (Z.of_nat (length arr))) ops ->
  (length arr <= fuel)%nat ->
  is_int pos ->
  pos < 0 \/ Z.of_nat (length arr) - 1 < pos ->
  let n := Z.of_nat (length arr) in
  exists s s',
    tree_after fuel arr ops = Done s /\
    update_pos fuel n pos val s = Done (tt, s') /\
    update_pos fuel n (clamp 0 (n - 1) pos) val s = Done (tt, s') /\
    Forall (in_storage n) (touched s') /\
    (forall fuel' l r, is_int l -> is_int r -> l < 0 -> 0 <= r ->
                       query fuel' n l r s = Diverge).
Proof.
  intros Hint Hn Hops Hfuel Hipos Hpos n.
  destruct (tree_after_inv fuel arr ops Hn Hops Hfuel) as (s & E & Hinv).
  destruct (update_inv fuel n _ s (clamp 0 (n - 1) pos) val Hinv) as (s' & E' & Hinv');
    [unfold clamp; lia | lia |].
  exists s, s'. split; [done|]. split; [|split; [done|split]].
  - unfold update_pos in *. rewrite update_clamp by lia. done.
  - apply Hinv'.
  - intros fuel' l r _ _ Hl Hr. unfold query. apply sum_diverges; lia.
Qed.

Lemma out_of_range_calls_witness :
  exists s s',
    tree_after 3 [1; 3; 5] [] = Done s /\
    update_pos 3 3 3 100 s = Done (tt, s') /\
    update_pos 3 3 (clamp 0 (3 - 1) 3) 100 s = Done (tt, s') /\
    Forall (in_storage 3) (touched s') /\
    (forall fuel' l r, is_int l -> is_int r -> l < 0 -> 0 <= r ->
                       query fuel' 3 l r s = Diverge).
Proof.
  apply (out_of_range_calls [1; 3; 5] [] 3 100 3).
  - cbn. unfold int_max. lia.
  - cbn. lia.
  - constructor.
  - cbn. lia.
  - by apply (bool_decide_unpack _).
  - right. cbn. lia.
Defined.

(** A slot number inside a storage whose size fits an [int] is an [int]. *)
Lemma in_storage_is_int n i : 4 * n <= int_max -> in_storage n i -> is_int i.
Proof. unfold in_storage, is_int, int_min, int_max. lia. Qed.

(** C4.  For every array of length [n >= 1] a storage of [4 * n] slots
    suffices: construction, any sequence of valid updates and a valid query
    all return without an out-of-bounds access, and every slot of [tree]
    they read or write has its index in [1, 4n), which is an [int].
    The array is short enough for every node number to fit an [int]:
    [4 * n <= int_max]. *)
Theorem storage_4n_suffices (arr : list Z) (ops : list (Z * Z)) (l r : Z) (fuel : nat) :
  4 * Z.of_nat (length arr) <= int_max ->
  (1 <= length arr)%nat ->
  Forall (valid_op (Z.of_nat (length arr))) ops ->
  0 <= l -> l <= r -> r <= Z.of_nat (length arr) - 1 ->
  (length arr <= fuel)%nat ->
  let n := Z.of_nat (length arr) in
  exists s0 s x s',
    SegmentTree_new fuel arr = Done s0 /\
    length (tree s0) = (4 * length arr)%nat /\
    Forall (in_storage n) (touched s0) /\
    state (updates fuel n ops s0) = Done s /\
    query fuel n l r s = Done (x, s') /\
    length (tree s') = (4 * length arr)%nat /\
    Forall (in_storage n) (touched s') /\
    Forall is_int (touched s').
Proof.
  intros Hint Hn Hops Hl Hlr Hr Hfuel n.
  destruct (new_inv fuel arr Hn Hfuel) as (s0 & E0 & Hinv0).
  destruct (updates_inv fuel n ops arr s0 Hinv0 Hops ltac:(lia)) as (s & E & Hinv).
  destruct (query_inv fuel n _ s l r Hinv Hl Hr ltac:(lia)) as (x & s' & Eq & T & X & _).
  exists s0, s, x, s'.
  pose proof (inv_len _ _ _ Hinv0). pose proof (inv_len _ _ _ Hinv).
  repeat split; [done | lia | apply Hinv0 | by rewrite E | done | rewrite T; lia | done |].
  eapply Forall_impl; [exact X|]. intros i. by apply in_storage_is_int.
Qed.

Lemma storage_4n_suffices_witness :
  exists s0 s x s',
    SegmentTree_new 5 [2; 4; 6; 8; 10] = Done s0 /\
    length (tree s0) = (4 * length [2; 4; 6; 8; 10])%nat /\
    Forall (in_storage 5) (touched s0) /\
    state (updates 5 5 [(4, 1); (0, 3)] s0) = Done s /\
    query 5 5 1 4 s = Done (x, s') /\
    length (tree s') = (4 * length [2; 4; 6; 8; 10])%nat /\
    Forall (in_storage 5) (touched s') /\
    Forall is_int (touched s').
Proof.
  apply (storage_4n_suffices [2; 4; 6; 8; 10] [(4, 1); (0, 3)] 1 4 5).
  - cbn. unfold int_max. lia.
  - cbn. lia.
  - by apply (bool_decide_unpack _).
  - lia.
  - lia.
  - cbn. lia.
  - cbn. lia.
Defined.

(** C5.  For every array [arr] of length [n >= 1] and every valid [pos],
    [query(pos, pos)] is [arr[pos]] right after construction, and is [val]
    right after [update(pos, val)] (on the fresh tree or after any earlier
    valid updates).
    The array is short enough for every node number to fit an [int]:
    [4 * n <= int_max]. *)
Theorem point_read_through (arr : list Z) (ops : list (Z * Z)) (pos val : Z) (fuel : nat) :
  4 * Z.of_nat (length arr) <= int_max ->
  (1 <= length arr)%nat -> Forall is_ll arr ->
  Forall (valid_op (Z.of_nat (length arr))) ops ->
  0 <= pos <= Z.of_nat (length arr) - 1 -> is_int val ->
  (length arr <= fuel)%nat ->
  let n := Z.of_nat (length arr) in
  (exists s0 x,
      SegmentTree_new fuel arr = Done s0 /\
      vec_at arr pos = Some x /\
      value (query fuel n pos pos s0) = Done x) /\
  (exists s s',
      tree_after fuel arr ops = Done s /\
      update_pos fuel n pos val s = Done (tt, s') /\
      value (query fuel n pos pos s') = Done val).
Proof.
  intros Hint Hn Hll Hops Hpos Hval Hfuel n. split.
  - destruct (new_inv fuel arr Hn Hfuel) as (s0 & E0 & Hinv0).
    destruct (tree_inv_lookup _ _ _ pos Hinv0 Hpos) as [x Hx].
    exists s0, x. repeat split; [done..|].
    apply (query_point fuel n arr); (done || lia).
  - destruct (tree_after_inv fuel arr ops Hn Hops Hfuel) as (s & E & Hinv).
    destruct (update_inv fuel n _ s pos val Hinv Hpos ltac:(lia)) as (s' & E' & Hinv').
    exists s, s'. repeat split; [done..|].
    destruct (tree_inv_lookup _ _ _ pos Hinv Hpos) as [x Hx].
    apply (query_point fuel n (arr_set (current arr ops) pos val)); [done | | | lia].
    + apply arr_set_is_ll; [by eapply current_is_ll | by apply is_int_is_ll].
    + unfold arr_set. by eapply vec_at_insert_eq.
Qed.

Lemma point_read_through_witness :
  (exists s0 x,
      SegmentTree_new 4 [10; 20; 30; 40] = Done s0 /\
      vec_at [10; 20; 30; 40] 2 = Some x /\
      value (query 4 4 2 2 s0) = Done x) /\
  (exists s s',
      tree_after 4 [10; 20; 30; 40] [(1, 5)] = Done s /\
      update_pos 4 4 2 (-7) s = Done (tt, s') /\
      value (query 4 4 2 2 s') = Done (-7)).
Proof.
  apply (point_read_through [10; 20; 30; 40] [(1, 5)] 2 (-7) 4).
  - cbn. unfold int_max. lia.
  - cbn. lia.
  - by apply (bool_decide_unpack _).
  - by apply (bool_decide_unpack _).
  - cbn. lia.
  - by apply (bool_decide_unpack _).
  - cbn. lia.
Defined.

(** C6.  For every tree over [0, n-1], every valid [pos] and every [int]
    value [val]: after [update(pos, val)], [query(i, i)] is unchanged for
    every [i <> pos] with [0 <= i <= n-1].
    The array is short enough for every node number to fit an [int]:
    [4 * n <= int_max]. *)
Theorem update_locality (arr : list Z) (ops : list (Z * Z)) (pos val i : Z) (fuel : nat) :
  4 * Z.of_nat (length arr) <= int_max ->
  (1 <= length arr)%nat -> Forall is_ll arr ->
  Forall (valid_op (Z.of_nat (length arr))) ops ->
  0 <= pos <= Z.of_nat (length arr) - 1 -> is_int val ->
  0 <= i <= Z.of_nat (length arr) - 1 -> i <> pos ->
  (length arr <= fuel)%nat ->
  let n := Z.of_nat (length arr) in
  exists s s' x,
    tree_after fuel arr ops = Done s /\
    update_pos fuel n pos val s = Done (tt, s') /\
    value (query fuel n i i s) = Done x /\
    value (query fuel n i i s') = Done x.
Proof.
  intros Hint Hn Hll Hops Hpos Hval Hi Hne Hfuel n.
  destruct (tree_after_inv fuel arr ops Hn Hops Hfuel) as (s & E & Hinv).
  destruct (update_inv fuel n _ s pos val Hinv Hpos ltac:(lia)) as (s' & E' & Hinv').
  destruct (tree_inv_lookup _ _ _ i Hinv Hi) as [x Hx].
  pose proof (current_is_ll _ ops arr Hll Hops) as Hcur.
  exists s, s', x. repeat split; [done..| |].
  - apply (query_point fuel n (current arr ops)); (done || lia).
  - apply (query_point fuel n (arr_set (current arr ops) pos val)); [done | | | lia].
    + apply arr_set_is_ll; [done | by apply is_int_is_ll].
    + unfold arr_set. rewrite vec_at_insert_ne by lia. done.
Qed.

Lemma update_locality_witness :
  exists s s' x,
    tree_after 4 [10; 20; 30; 40] [(3, 0)] = Done s /\
    update_pos 4 4 1 99 s = Done (tt, s') /\
    value (query 4 4 2 2 s) = Done x /\
    value (query 4 4 2 2 s') = Done x.
Proof.
  apply (update_locality [10; 20; 30; 40] [(3, 0)] 1 99 2 4).
  - cbn. unfold int_max. lia.
  - cbn. lia.
  - by apply (bool_decide_unpack _).
  - by apply (bool_decide_unpack _).
  - cbn. lia.
  - by apply (bool_decide_unpack _).
  - cbn. lia.
  - lia.
  - cbn. lia.
Defined.

(** C7.  For every tree over [0, n-1] and all [0 <= l <= m < r <= n-1],
    [query(l, r)] is the code's sum of [query(l, m)] and
    [query(m+1, r)].
    The array is short enough for every node number to fit an [int]:
    [4 * n <= int_max]. *)
Theorem range_additivity (arr : list Z) (ops : list (Z * Z)) (l m r : Z) (fuel : nat) :
  4 * Z.of_nat (length arr) <= int_max ->
  (1 <= length arr)%nat -> Forall is_ll arr ->
  Forall (valid_op (Z.of_nat (length arr))) ops ->
  0 <= l -> l <= m -> m < r -> r <= Z.of_nat (length arr) - 1 ->
  (length arr <= fuel)%nat ->
  let n := Z.of_nat (length arr) in
  exists s x y z,
    tree_after fuel arr ops = Done s /\
    value (query fuel n l r s) = Done x /\
    value (query fuel n l m s) = Done y /\
    value (query fuel n (m + 1) r s) = Done z /\
    x = ll_add y z.
Proof.
  intros Hint Hn Hll Hops Hl Hlm Hmr Hr Hfuel n.
  destruct (tree_after_inv fuel arr ops Hn Hops Hfuel) as (s & E & Hinv).
  pose proof (current_is_ll _ ops arr Hll Hops) as Hcur.
  exists s. eexists _, _, _. split; [done|].
  split; [apply (query_value fuel n (current arr ops)); (done || lia)|].
  split; [apply (query_value fuel n (current arr ops)); (done || lia)|].
  split; [apply (query_value fuel n (current arr ops)); (done || lia)|].
  rewrite <- ll_sum_app. f_equal. apply range_of_app; lia.
Qed.

Lemma range_additivity_witness :
  exists s x y z,
    tree_after 5 [2; 4; 6; 8; 10] [(2, 7)] = Done s /\
    value (query 5 5 0 4 s) = Done x /\
    value (query 5 5 0 1 s) = Done y /\
    value (query 5 5 (1 + 1) 4 s) = Done z /\
    x = ll_add y z.
Proof.
  apply (range_additivity [2; 4; 6; 8; 10] [(2, 7)] 0 1 4 5).
  - cbn. unfold int_max. lia.
  - cbn. lia.
  - by apply (bool_decide_unpack _).
  - by apply (bool_decide_unpack _).
  - lia.
  - lia.
  - lia.
  - cbn. lia.
  - cbn. lia.
Defined.

(** C8.  For the tree built from [[1; 3; 5; 7; 9; 11]]: [query(1, 4)] is
    24; after [update(2, 100)], [query(1, 4)] is 119 and [query(0, 5)] is
    131. *)
Theorem concrete_scenario (fuel : nat) :
  (6 <= fuel)%nat ->
  exists s s',
    SegmentTree_new fuel [1; 3; 5; 7; 9; 11] = Done s /\
    value (query fuel 6 1 4 s) = Done 24 /\
    update_pos fuel 6 2 100 s = Done (tt, s') /\
    value (query fuel 6 1 4 s') = Done 119 /\
    value (query fuel 6 0 5 s') = Done 131.
Proof.
  intros Hfuel.
  assert (Forall is_ll [1; 3; 5; 7; 9; 11]) as Hll by (by apply (bool_decide_unpack _)).
  destruct (new_inv fuel [1; 3; 5; 7; 9; 11]) as (s & E & Hinv); [cbn; lia..|].
  change (Z.of_nat (length [1; 3; 5; 7; 9; 11])) with 6 in Hinv.
  destruct (update_inv fuel 6 _ s 2 100 Hinv) as (s' & E' & Hinv'); [lia..|].
  assert (Forall is_ll (arr_set [1; 3; 5; 7; 9; 11] 2 100)) as Hll'
    by (by apply (bool_decide_unpack _)).
  exists s, s'. split; [done|].
  split; [|split; [done|split]].
  - rewrite (query_value fuel 6 _ s 1 4 Hinv) by (done || lia). reflexivity.
  - rewrite (query_value fuel 6 _ s' 1 4 Hinv') by (done || lia). reflexivity.
  - rewrite (query_value fuel 6 _ s' 0 5 Hinv') by (done || lia). reflexivity.
Qed.

Lemma concrete_scenario_witness :
  exists s s',
    SegmentTree_new 6 [1; 3; 5; 7; 9; 11] = Done s /\
    value (query 6 6 1 4 s) = Done 24 /\
    update_pos 6 6 2 100 s = Done (tt, s') /\
    value (query 6 6 1 4 s') = Done 119 /\
    value (query 6 6 0 5 s') = Done 131.
Proof. apply (concrete_scenario 6). lia. Defined.

(** ** Properties of the smart pointers *)

(** Copy construction from a pointer whose counter holds [c]: the counter
    is not written, and the copy's counter pointer is one cell past it. *)
Lemma copy_ctor_effect (h : SharedPtr.heap) (p : SharedPtr.customSharedPtr) blk c :
  SharedPtr.m_ref_count p = SharedPtr.cell blk 0 -> h !! blk = Some c ->
  SharedPtr.copy_ctor h p = Done (SharedPtr.mk (SharedPtr.m_ptr p) (SharedPtr.cell blk 1), h) /\
  SharedPtr.use_count h p = Done (ll_wrap c) /\
  SharedPtr.use_count h (SharedPtr.mk (SharedPtr.m_ptr p) (SharedPtr.cell blk 1)) = Fault.
Proof.
  destruct p as [ptr rc]. cbn. intros -> Hc.
  unfold SharedPtr.copy_ctor, SharedPtr.use_count. cbn. by rewrite Hc.
Qed.

(** X10.  Copy assignment, the sibling of the copy constructor, does count the new
    owner: both pointers see [c + 1]. *)
Lemma copy_assign_effect (h : SharedPtr.heap) (p : SharedPtr.customSharedPtr) blk c a :
  SharedPtr.m_ptr p = Some a ->
  SharedPtr.m_ref_count p = SharedPtr.cell blk 0 -> h !! blk = Some c ->
  0 <= c -> c + 1 < 2 ^ 63 ->
  exists q h',
    SharedPtr.copy_assign h p = Done (q, h') /\
    SharedPtr.use_count h' p = Done (c + 1) /\
    SharedPtr.use_count h' q = Done (c + 1).
Proof.
  destruct p as [ptr rc]. cbn. intros -> -> Hc H0 Hlt.
  unfold SharedPtr.copy_assign, SharedPtr.use_count. cbn. rewrite Hc.
  eexists _, _. split; [done|]. cbn.
  rewrite lookup_insert_eq. unfold SharedPtr.size_t_wrap.
  rewrite Z.mod_small by lia.
  rewrite ll_wrap_id by (unfold is_ll, ll_min, ll_max; lia). done.
Qed.

(** C9, on the code.  [customSharedPtr<int> p(new int(6)); customSharedPtr<int> q(p);]
    leaves [p.use_count()] at 1, and [q.use_count()] reads the cell after the
    counter, outside its allocation. *)
Theorem copy_ctor_does_not_count :
  exists p h q h',
    SharedPtr.ctor ∅ (Some 0%nat) = (p, h) /\
    SharedPtr.use_count h p = Done 1 /\
    SharedPtr.copy_ctor h p = Done (q, h') /\
    SharedPtr.use_count h' p = Done 1 /\
    SharedPtr.use_count h' q = Fault.
Proof.
  eexists _, _, _, _. split; [reflexivity|].
  split; [vm_compute; reflexivity|].
  split; [vm_compute; reflexivity|].
  split; vm_compute; reflexivity.
Qed.

(** C10.  After a [customUniquePointer] is moved from, by move construction
    of a new object or by move assignment into another existing object, its
    [get()] is [nullptr] and its [operator bool] is [false], and the
    destination's [get()] is the pointer the source managed before. *)
Theorem moved_from_is_null (w : UniquePtr.world) (src dst : nat) (o : UniquePtr.customUniquePointer) :
  UniquePtr.objs w !! src = Some o -> src <> dst ->
  (UniquePtr.objs w !! dst = None ->
   exists w', UniquePtr.move_ctor w dst src = Some w' /\
              UniquePtr.get w' src = Some None /\
              UniquePtr.to_bool w' src = Some false /\
              UniquePtr.get w' dst = Some (UniquePtr.mPtr o)) /\
  (is_Some (UniquePtr.objs w !! dst) ->
   exists w', UniquePtr.move_assign w dst src = Some w' /\
              UniquePtr.get w' src = Some None /\
              UniquePtr.to_bool w' src = Some false /\
              UniquePtr.get w' dst = Some (UniquePtr.mPtr o)).
Proof.
  intros Hsrc Hne. assert (dst <> src) as Hne' by done. split.
  - intros Hdst. unfold UniquePtr.move_ctor, UniquePtr.exchange_mPtr.
    rewrite Hdst, Hsrc. cbn. rewrite lookup_insert_eq. cbn.
    eexists. split; [done|].
    unfold UniquePtr.get, UniquePtr.to_bool. cbn.
    rewrite (lookup_insert_ne _ dst src) by done.
    rewrite !lookup_insert_eq. repeat split; reflexivity.
  - intros [t Hdst]. unfold UniquePtr.move_assign, UniquePtr.exchange_mPtr.
    rewrite Hdst, Hsrc. cbn.
    rewrite (lookup_insert_ne _ src dst) by done. rewrite Hdst. cbn.
    rewrite (lookup_insert_ne _ dst src) by done.
    rewrite !lookup_insert_eq. cbn.
    eexists. split; [done|].
    unfold UniquePtr.get, UniquePtr.to_bool. cbn.
    rewrite !(lookup_insert_ne _ dst src) by done.
    rewrite !lookup_insert_eq. repeat split; reflexivity.
Qed.

Lemma moved_from_is_null_witness :
  (exists w', UniquePtr.move_ctor UniquePtr.main_world 3 1 = Some w' /\
              UniquePtr.get w' 1%nat = Some None /\
              UniquePtr.to_bool w' 1%nat = Some false /\
              UniquePtr.get w' 3%nat = Some (Some 0%nat)) /\
  (exists w', UniquePtr.move_assign UniquePtr.main_world 2 1 = Some w' /\
              UniquePtr.get w' 1%nat = Some None /\
              UniquePtr.to_bool w' 1%nat = Some false /\
              UniquePtr.get w' 2%nat = Some (Some 0%nat)).
Proof.
  split.
  - apply (moved_from_is_null UniquePtr.main_world 1 3
             (UniquePtr.mk (Some 0%nat) UniquePtr.default_delete));
      [reflexivity | lia | reflexivity].
  - apply (moved_from_is_null UniquePtr.main_world 1 2
             (UniquePtr.mk (Some 0%nat) UniquePtr.default_delete));
      [reflexivity | lia | eexists; reflexivity].
Defined.

(** Move assignment of an object to itself is not covered by C10: the
    object keeps its pointer, which its deleter has already been called
    on. *)
Lemma self_move_assign_keeps_pointer :
  exists w', UniquePtr.move_assign UniquePtr.main_world 1 1 = Some w' /\
             UniquePtr.get w' 1%nat = Some (Some 0%nat) /\
             0%nat ∉ UniquePtr.live w'.
Proof.
  eexists. split; [reflexivity|]. split; [reflexivity|].
  cbn. rewrite elem_of_difference, elem_of_singleton. intros [_ H]. by apply H.
Qed.

(** * Further properties *)

(** ** The segment tree on arbitrary arguments *)

Lemma tree_read_inv i s x s' :
  tree_read i s = Done (x, s') -> tree s' = tree s /\ vec_at (tree s) i = Some x.
Proof.
  unfold tree_read. destruct (vec_at (tree s) i) as [y|]; [|done].
  intros [= <- <-]. done.
Qed.

Lemma tree_write_inv i x s u s' :
  tree_write i x s = Done (u, s') -> tree s' = <[Z.to_nat i := x]> (tree s).
Proof.
  unfold tree_write. destruct (vec_at (tree s) i) as [y|]; [|done].
  intros [= <- <-]. done.
Qed.

Lemma bind_Done_inv {A B : Type} (m : M A) (k : A -> M B) s r :
  (m ≫= k) s = Done r -> exists a s1, m s = Done (a, s1) /\ k a s1 = Done r.
Proof.
  unfold mbind, M_bind. destruct (m s) as [[a s1]| |]; [|done..]. eauto.
Qed.

(** X2.  [sum] is read-only whatever its arguments: when it returns, the
    storage is what it was. *)
Theorem sum_read_only (fuel : nat) (v tl tr l r : Z) (s s' : SegmentTree) (x : Z) :
  sum fuel v tl tr l r s = Done (x, s') -> tree s' = tree s.
Proof.
  revert v tl tr l r s s' x.
  induction fuel as [|fuel IH]; intros v tl tr l r s s' x; [done|].
  cbn [sum]. destruct (l >? r); [by intros [= _ <-]|].
  destruct ((l =? tl) && (r =? tr)); [by intros [? _]%tree_read_inv|].
  intros (a & s1 & E1 & (b & s2 & E2 & E3)%bind_Done_inv)%bind_Done_inv.
  injection E3 as _ <-.
  rewrite (IH _ _ _ _ _ _ _ _ E2). exact (IH _ _ _ _ _ _ _ _ E1).
Qed.

Lemma sum_read_only_witness :
  tree (mkSegmentTree [0; 5; 2; 3] [1]) = tree (mkSegmentTree [0; 5; 2; 3] []).
Proof. apply (sum_read_only 2 1 0 1 0 1 _ _ 5). reflexivity. Defined.

Lemma build_keeps_length fuel arr : forall v tl tr s u s',
  build fuel arr v tl tr s = Done (u, s') -> length (tree s') = length (tree s).
Proof.
  induction fuel as [|fuel IH]; intros v tl tr s u s'; [done|].
  cbn [build]. destruct (tl =? tr).
  - intros (x & s1 & E1 & E2)%bind_Done_inv.
    unfold arr_read in E1. destruct (vec_at arr tl); [|done]. injection E1 as <- <-.
    rewrite (tree_write_inv _ _ _ _ _ E2). apply length_insert.
  - intros (u1 & s1 & E1 & (u2 & s2 & E2 & (a & s3 & E3 & (b & s4 & E4 & E5)%bind_Done_inv
           )%bind_Done_inv)%bind_Done_inv)%bind_Done_inv.
    rewrite (tree_write_inv _ _ _ _ _ E5), length_insert.
    apply tree_read_inv in E3 as [E3 _], E4 as [E4 _]. rewrite E4, E3.
    rewrite (IH _ _ _ _ _ _ E2). exact (IH _ _ _ _ _ _ E1).
Qed.

Lemma update_keeps_length fuel : forall v tl tr pos val s u s',
  update fuel v tl tr pos val s = Done (u, s') -> length (tree s') = length (tree s).
Proof.
  induction fuel as [|fuel IH]; intros v tl tr pos val s u s'; [done|].
  cbn [update]. destruct (tl =? tr).
  - intros E. rewrite (tree_write_inv _ _ _ _ _ E). apply length_insert.
  - intros (u1 & s1 & E1 & (a & s3 & E3 & (b & s4 & E4 & E5)%bind_Done_inv
           )%bind_Done_inv)%bind_Done_inv.
    rewrite (tree_write_inv _ _ _ _ _ E5), length_insert.
    apply tree_read_inv in E3 as [E3 _], E4 as [E4 _]. rewrite E4, E3.
    destruct (pos <=? mid tl tr); exact (IH _ _ _ _ _ _ _ _ E1).
Qed.

(** X3.  The storage is never resized: whatever their arguments, [build]
    and [update] leave the vector at the length it had when they return. *)
Theorem storage_never_resized (fuel : nat) (arr : list Z) (v tl tr pos val : Z) (s s' : SegmentTree) :
  build fuel arr v tl tr s = Done (tt, s') \/ update fuel v tl tr pos val s = Done (tt, s') ->
  length (tree s') = length (tree s).
Proof.
  intros [H|H]; [by eapply build_keeps_length | by eapply update_keeps_length].
Qed.

Lemma storage_never_resized_witness :
  length (tree (mkSegmentTree (<[Z.to_nat 1 := 9]> [0; 5; 0; 0]) [1]))
  = length (tree (mkSegmentTree [0; 5; 0; 0] [])).
Proof.
  apply (storage_never_resized 1 [] 1 0 0 7 9). right. reflexivity.
Defined.

(** X7.  The constructor on an empty array reads [arr[0]] of an empty
    vector: with [n = 0] the root interval is [0, -1], whose left half is
    the leaf [0, 0]. *)
Theorem empty_array_faults (fuel : nat) :
  (2 <= fuel)%nat -> SegmentTree_new fuel [] = Fault.
Proof.
  intros H. destruct fuel as [|[|fuel]]; [lia..|]. reflexivity.
Qed.

Lemma empty_array_faults_witness : SegmentTree_new 2 [] = Fault.
Proof. apply (empty_array_faults 2). lia. Defined.

(** ** Queries on updated trees *)

(** X1.  On the tree built from [arr] and updated by any sequence of valid
    [update] calls, [query(l, r)] returns the aggregate of the elements
    [l..r] of the array as those updates left it.
    The array is short enough for every node number to fit an [int]:
    [4 * n <= int_max]. *)
Theorem query_after_updates (arr : list Z) (ops : list (Z * Z)) (l r : Z) (fuel : nat) :
  4 * Z.of_nat (length arr) <= int_max ->
  (1 <= length arr)%nat -> Forall is_ll arr ->
  Forall (valid_op (Z.of_nat (length arr))) ops ->
  0 <= l -> l <= r -> r <= Z.of_nat (length arr) - 1 ->
  (length arr <= fuel)%nat ->
  exists s,
    tree_after fuel arr ops = Done s /\
    value (query fuel (Z.of_nat (length arr)) l r s)
    = Done (ll_sum (range_of (current arr ops) l r)).
Proof.
  intros Hint Hn Hll Hops Hl Hlr Hr Hfuel.
  destruct (tree_after_inv fuel arr ops Hn Hops Hfuel) as (s & E & Hinv).
  exists s. split; [done|].
  apply (query_value fuel _ (current arr ops)); [done | | lia..].
  by eapply current_is_ll.
Qed.

Lemma query_after_updates_witness :
  exists s,
    tree_after 4 [10; 20; 30; 40] [(1, 5); (3, -2); (1, 6)] = Done s /\
    value (query 4 (Z.of_nat (length [10; 20; 30; 40])) 1 3 s)
    = Done (ll_sum (range_of (current [10; 20; 30; 40] [(1, 5); (3, -2); (1, 6)]) 1 3)).
Proof.
  apply (query_after_updates [10; 20; 30; 40] [(1, 5); (3, -2); (1, 6)] 1 3 4).
  - cbn. unfold int_max. lia.
  - cbn. lia.
  - by apply (bool_decide_unpack _).
  - by apply (bool_decide_unpack _).
  - lia.
  - lia.
  - cbn. lia.
  - cbn. lia.
Defined.

(** X5.  Updates at two different positions commute: in either order they
    lead to trees that answer every query alike.
    The array is short enough for every node number to fit an [int]:
    [4 * n <= int_max]. *)
Theorem updates_commute (arr : list Z) (ops : list (Z * Z)) (p1 v1 p2 v2 l r : Z) (fuel : nat) :
  4 * Z.of_nat (length arr) <= int_max ->
  (1 <= length arr)%nat -> Forall is_ll arr ->
  Forall (valid_op (Z.of_nat (length arr))) ops ->
  valid_op (Z.of_nat (length arr)) (p1, v1) ->
  valid_op (Z.of_nat (length arr)) (p2, v2) ->
  p1 <> p2 ->
  0 <= l -> l <= r -> r <= Z.of_nat (length arr) - 1 ->
  (length arr <= fuel)%nat ->
  let n := Z.of_nat (length arr) in
  exists s12 s21 x,
    tree_after fuel arr (ops ++ [(p1, v1); (p2, v2)]) = Done s12 /\
    tree_after fuel arr (ops ++ [(p2, v2); (p1, v1)]) = Done s21 /\
    value (query fuel n l r s12) = Done x /\
    value (query fuel n l r s21) = Done x.
Proof.
  intros Hint Hn Hll Hops H1 H2 Hne Hl Hlr Hr Hfuel n.
  assert (Forall (valid_op n) (ops ++ [(p1, v1); (p2, v2)])) as Hops12
    by (apply Forall_app; split; [done | by repeat apply Forall_cons_2; try apply Forall_nil_2]).
  assert (Forall (valid_op n) (ops ++ [(p2, v2); (p1, v1)])) as Hops21
    by (apply Forall_app; split; [done | by repeat apply Forall_cons_2; try apply Forall_nil_2]).
  destruct (tree_after_inv fuel arr _ Hn Hops12 Hfuel) as (s12 & E12 & Hinv12).
  destruct (tree_after_inv fuel arr _ Hn Hops21 Hfuel) as (s21 & E21 & Hinv21).
  exists s12, s21. eexists. split; [done|]. split; [done|]. split.
  - apply (query_value fuel n _ s12 l r Hinv12); [by eapply current_is_ll | lia..].
  - rewrite (query_value fuel n _ s21 l r Hinv21); [| by eapply current_is_ll | lia..].
    do 3 f_equal. rewrite !current_app. cbn. unfold arr_set. cbn.
    apply list_insert_insert_ne. destruct H1 as [? _], H2 as [? _]. cbn in *. lia.
Qed.

Lemma updates_commute_witness :
  exists s12 s21 x,
    tree_after 3 [4; 5; 6] ([(1, 0)] ++ [(0, 7); (2, 8)]) = Done s12 /\
    tree_after 3 [4; 5; 6] ([(1, 0)] ++ [(2, 8); (0, 7)]) = Done s21 /\
    value (query 3 3 0 2 s12) = Done x /\
    value (query 3 3 0 2 s21) = Done x.
Proof.
  apply (updates_commute [4; 5; 6] [(1, 0)] 0 7 2 8 0 2 3).
  - cbn. unfold int_max. lia.
  - cbn. lia.
  - by apply (bool_decide_unpack _).
  - by apply (bool_decide_unpack _).
  - by apply (bool_decide_unpack _).
  - by apply (bool_decide_unpack _).
  - lia.
  - lia.
  - lia.
  - cbn. lia.
  - cbn. lia.
Defined.

(** [update] with the value the position already holds rewrites every
    slot on its path with what the slot held. *)
Lemma update_same_value a pos val t v tl tr :
  node_ok t a v tl tr -> forall fuel s,
  tree s = t -> vec_at a pos = Some val -> tl <= pos <= tr ->
  tr - tl < Z.of_nat fuel ->
  exists s', update fuel v tl tr pos val s = Done (tt, s') /\ tree s' = t.
Proof.
  induction 1 as [v tl x Hv Ha|v tl tr x y Hlt Hl IHl Hr IHr Hx Hy Hv];
    intros [|fuel] s Hs Hval Hpos Hfuel; try lia; cbn [update].
  - rewrite Z.eqb_refl. assert (pos = tl) as -> by lia. subst t.
    eexists. split; [by eapply tree_write_Done|]. cbn.
    assert (x = val) as -> by congruence.
    pose proof (vec_at_Some _ _ _ Hv). rewrite vec_at_lookup in Hv by lia.
    by apply list_insert_id.
  - pose proof (mid_bounds tl tr Hlt) as Hm.
    destruct (Z.eqb_spec tl tr) as [?|_]; [lia|].
    assert (exists s1,
              (if pos <=? mid tl tr
               then update fuel (2 * v) tl (mid tl tr) pos val
               else update fuel (2 * v + 1) (mid tl tr + 1) tr pos val) s = Done (tt, s1) /\
              tree s1 = t) as (s1 & E1 & T1).
    { destruct (Z.leb_spec pos (mid tl tr)) as [Hp|Hp].
      - apply IHl; (done || lia).
      - apply IHr; (done || lia). }
    eexists. split.
    + erewrite bind_Done by exact E1.
      erewrite bind_Done by (apply tree_read_Done; rewrite T1; exact Hx).
      erewrite bind_Done by (apply tree_read_Done; cbn; rewrite T1; exact Hy).
      eapply tree_write_Done. cbn. rewrite T1. exact Hv.
    + cbn. rewrite T1.
      pose proof (vec_at_Some _ _ _ Hv). rewrite vec_at_lookup in Hv by lia.
      by apply list_insert_id.
Qed.

(** X6.  [update] is idempotent: repeating [update(pos, val)] right after
    it leaves every slot of the storage as the first call left it.
    The array is short enough for every node number to fit an [int]:
    [4 * n <= int_max]. *)
Theorem update_idempotent (arr : list Z) (ops : list (Z * Z)) (pos val : Z) (fuel : nat) :
  4 * Z.of_nat (length arr) <= int_max ->
  (1 <= length arr)%nat ->
  Forall (valid_op (Z.of_nat (length arr))) ops ->
  0 <= pos <= Z.of_nat (length arr) - 1 ->
  (length arr <= fuel)%nat ->
  let n := Z.of_nat (length arr) in
  exists s s1 s2,
    tree_after fuel arr ops = Done s /\
    update_pos fuel n pos val s = Done (tt, s1) /\
    update_pos fuel n pos val s1 = Done (tt, s2) /\
    tree s2 = tree s1.
Proof.
  intros Hint Hn Hops Hpos Hfuel n.
  destruct (tree_after_inv fuel arr ops Hn Hops Hfuel) as (s & E & Hinv).
  destruct (update_inv fuel n _ s pos val Hinv Hpos ltac:(lia)) as (s1 & E1 & Hinv1).
  destruct (tree_inv_lookup _ _ _ pos Hinv Hpos) as [x Hx].
  destruct (update_same_value _ pos val _ _ _ _ (inv_node _ _ _ Hinv1) fuel s1)
    as (s2 & E2 & T2); [done | | lia..|].
  { unfold arr_set. by eapply vec_at_insert_eq. }
  exists s, s1, s2. done.
Qed.

Lemma update_idempotent_witness :
  exists s s1 s2,
    tree_after 3 [4; 5; 6] [(1, 0)] = Done s /\
    update_pos 3 3 2 11 s = Done (tt, s1) /\
    update_pos 3 3 2 11 s1 = Done (tt, s2) /\
    tree s2 = tree s1.
Proof.
  apply (update_idempotent [4; 5; 6] [(1, 0)] 2 11 3).
  - cbn. unfold int_max. lia.
  - cbn. lia.
  - by apply (bool_decide_unpack _).
  - cbn. lia.
  - cbn. lia.
Defined.

(** ** Recursion depth *)

Lemma build_S fuel arr v tl tr :
  build (S fuel) arr v tl tr =
  if tl =? tr then x ← arr_read arr tl; tree_write v x
  else build fuel arr (v * 2) tl (mid tl tr);;
       build fuel arr (v * 2 + 1) (mid tl tr + 1) tr;;
       a ← tree_read (2 * v); b ← tree_read (2 * v + 1); tree_write v (ll_add a b).
Proof. reflexivity. Qed.

Lemma sum_S fuel v tl tr l r :
  sum (S fuel) v tl tr l r =
  if l >? r then mret 0
  else if (l =? tl) && (r =? tr) then tree_read v
  else a ← sum fuel (2 * v) tl (mid tl tr) l (Z.min r (mid tl tr));
       b ← sum fuel (2 * v + 1) (mid tl tr + 1) tr (Z.max l (mid tl tr + 1)) r;
       mret (ll_add a b).
Proof. reflexivity. Qed.

Lemma update_S fuel v tl tr pos val :
  update (S fuel) v tl tr pos val =
  if tl =? tr then tree_write v val
  else (if pos <=? mid tl tr then update fuel (2 * v) tl (mid tl tr) pos val
        else update fuel (2 * v + 1) (mid tl tr + 1) tr pos val);;
       a ← tree_read (2 * v); b ← tree_read (2 * v + 1); tree_write v (ll_add a b).
Proof. reflexivity. Qed.

(** More fuel does not change the outcome of a call that had enough. *)
Lemma build_fuel_S arr fuel : forall v tl tr s,
  build fuel arr v tl tr s <> Diverge ->
  build (S fuel) arr v tl tr s = build fuel arr v tl tr s.
Proof.
  induction fuel as [|fuel IH]; intros v tl tr s H; [done|].
  rewrite (build_S (S fuel) arr v tl tr). rewrite (build_S fuel arr v tl tr) in H |- *.
  destruct (tl =? tr); [done|]. unfold mbind, M_bind in *.
  rewrite IH by (intros Hd; by rewrite Hd in H).
  destruct (build fuel arr (v * 2) tl (mid tl tr) s) as [[u1 s1]| |]; [|done..].
  rewrite IH by (intros Hd; by rewrite Hd in H). done.
Qed.

Lemma sum_fuel_S fuel : forall v tl tr l r s,
  sum fuel v tl tr l r s <> Diverge ->
  sum (S fuel) v tl tr l r s = sum fuel v tl tr l r s.
Proof.
  induction fuel as [|fuel IH]; intros v tl tr l r s H; [done|].
  rewrite (sum_S (S fuel) v tl tr l r). rewrite (sum_S fuel v tl tr l r) in H |- *.
  destruct (l >? r); [done|]. destruct ((l =? tl) && (r =? tr)); [done|].
  unfold mbind, M_bind in *.
  rewrite IH by (intros Hd; by rewrite Hd in H).
  destruct (sum fuel (2 * v) tl (mid tl tr) l (Z.min r (mid tl tr)) s) as [[a s1]| |]; [|done..].
  rewrite IH by (intros Hd; by rewrite Hd in H). done.
Qed.

Lemma update_fuel_S fuel : forall v tl tr pos val s,
  update fuel v tl tr pos val s <> Diverge ->
  update (S fuel) v tl tr pos val s = update fuel v tl tr pos val s.
Proof.
  induction fuel as [|fuel IH]; intros v tl tr pos val s H; [done|].
  rewrite (update_S (S fuel) v tl tr pos val). rewrite (update_S fuel v tl tr pos val) in H |- *.
  destruct (tl =? tr); [done|]. unfold mbind, M_bind in *.
  destruct (pos <=? mid tl tr); rewrite IH by (intros Hd; by rewrite Hd in H); done.
Qed.

Lemma build_fuel_le arr fuel fuel' v tl tr s :
  (fuel <= fuel')%nat -> build fuel arr v tl tr s <> Diverge ->
  build fuel' arr v tl tr s = build fuel arr v tl tr s.
Proof.
  induction 1 as [|fuel' Hle IH]; intros H; [done|].
  rewrite build_fuel_S; rewrite IH; done.
Qed.

Lemma sum_fuel_le fuel fuel' v tl tr l r s :
  (fuel <= fuel')%nat -> sum fuel v tl tr l r s <> Diverge ->
  sum fuel' v tl tr l r s = sum fuel v tl tr l r s.
Proof.
  induction 1 as [|fuel' Hle IH]; intros H; [done|].
  rewrite sum_fuel_S; rewrite IH; done.
Qed.

Lemma update_fuel_le fuel fuel' v tl tr pos val s :
  (fuel <= fuel')%nat -> update fuel v tl tr pos val s <> Diverge ->
  update fuel' v tl tr pos val s = update fuel v tl tr pos val s.
Proof.
  induction 1 as [|fuel' Hle IH]; intros H; [done|].
  rewrite update_fuel_S; rewrite IH; done.
Qed.

Lemma tree_read_not_Diverge i s : tree_read i s <> Diverge.
Proof. unfold tree_read. by destruct (vec_at (tree s) i). Qed.

Lemma tree_write_not_Diverge i x s : tree_write i x s <> Diverge.
Proof. unfold tree_write. by destruct (vec_at (tree s) i). Qed.

Lemma recompute_not_Diverge v s :
  (a ← tree_read (2 * v); b ← tree_read (2 * v + 1); tree_write v (ll_add a b)) s <> Diverge.
Proof.
  unfold mbind, M_bind.
  pose proof (tree_read_not_Diverge (2 * v) s).
  destruct (tree_read (2 * v) s) as [[a s1]| |]; [|done..].
  pose proof (tree_read_not_Diverge (2 * v + 1) s1).
  destruct (tree_read (2 * v + 1) s1) as [[b s2]| |]; [|done..].
  apply tree_write_not_Diverge.
Qed.

(** The halves of an interval of at most [2 * k] elements have at most [k]. *)
Lemma halves_size tl tr k :
  tl < tr -> tr - tl + 1 <= 2 * k ->
  mid tl tr - tl + 1 <= k /\ tr - (mid tl tr + 1) + 1 <= k.
Proof. intros Hlt Hk. pose proof (mid_halves tl tr Hlt). lia. Qed.

(** A depth of [d + 1] is enough on an interval of at most [2 ^ d]
    elements. *)
Lemma build_depth arr d : forall v tl tr s,
  tl <= tr -> tr - tl + 1 <= 2 ^ Z.of_nat d ->
  build (S d) arr v tl tr s <> Diverge.
Proof.
  induction d as [|d IH]; intros v tl tr s Hle Hsize; rewrite build_S;
    destruct (Z.eqb_spec tl tr) as [->|Hne];
    try (unfold mbind, M_bind, arr_read; destruct (vec_at arr tr); [apply tree_write_not_Diverge | done]).
  - change (2 ^ Z.of_nat 0) with 1 in Hsize. lia.
  - rewrite Nat2Z.inj_succ, Z.pow_succ_r in Hsize by lia.
    destruct (halves_size tl tr _ ltac:(lia) Hsize) as [Hl Hr].
    pose proof (mid_bounds tl tr ltac:(lia)) as Hm.
    unfold mbind at 1, M_bind at 1.
    pose proof (IH (v * 2) tl (mid tl tr) s ltac:(lia) Hl).
    destruct (build (S d) arr (v * 2) tl (mid tl tr) s) as [[u1 s1]| |]; [|done..].
    unfold mbind at 1, M_bind at 1.
    pose proof (IH (v * 2 + 1) (mid tl tr + 1) tr s1 ltac:(lia) Hr).
    destruct (build (S d) arr (v * 2 + 1) (mid tl tr + 1) tr s1) as [[u2 s2]| |]; [|done..].
    apply recompute_not_Diverge.
Qed.

Lemma sum_depth d : forall v tl tr l r s,
  tl <= l -> r <= tr -> tr - tl + 1 <= 2 ^ Z.of_nat d ->
  sum (S d) v tl tr l r s <> Diverge.
Proof.
  induction d as [|d IH]; intros v tl tr l r s Hl Hr Hsize; rewrite sum_S;
    rewrite Z.gtb_ltb; (destruct (Z.ltb_spec r l) as [Hrl|Hlr]; [done|]);
    (destruct (Z.eqb_spec l tl) as [->|Hne1];
      [destruct (Z.eqb_spec r tr) as [->|Hne2]|]; cbn [andb];
      try apply tree_read_not_Diverge).
  - change (2 ^ Z.of_nat 0) with 1 in Hsize. lia.
  - change (2 ^ Z.of_nat 0) with 1 in Hsize. lia.
  - rewrite Nat2Z.inj_succ, Z.pow_succ_r in Hsize by lia.
    destruct (halves_size tl tr _ ltac:(lia) Hsize) as [Hl' Hr'].
    pose proof (mid_bounds tl tr ltac:(lia)) as Hm.
    unfold mbind at 1, M_bind at 1.
    pose proof (IH (2 * v) tl (mid tl tr) tl (Z.min r (mid tl tr)) s ltac:(lia) ltac:(lia) Hl').
    destruct (sum (S d) (2 * v) tl (mid tl tr) tl (Z.min r (mid tl tr)) s) as [[a s1]| |]; [|done..].
    unfold mbind at 1, M_bind at 1.
    pose proof (IH (2 * v + 1) (mid tl tr + 1) tr (Z.max tl (mid tl tr + 1)) r s1
                  ltac:(lia) ltac:(lia) Hr').
    destruct (sum (S d) (2 * v + 1) (mid tl tr + 1) tr (Z.max tl (mid tl tr + 1)) r s1)
      as [[b s2]| |]; done.
  - rewrite Nat2Z.inj_succ, Z.pow_succ_r in Hsize by lia.
    destruct (halves_size tl tr _ ltac:(lia) Hsize) as [Hl' Hr'].
    pose proof (mid_bounds tl tr ltac:(lia)) as Hm.
    unfold mbind at 1, M_bind at 1.
    pose proof (IH (2 * v) tl (mid tl tr) l (Z.min r (mid tl tr)) s ltac:(lia) ltac:(lia) Hl').
    destruct (sum (S d) (2 * v) tl (mid tl tr) l (Z.min r (mid tl tr)) s) as [[a s1]| |]; [|done..].
    unfold mbind at 1, M_bind at 1.
    pose proof (IH (2 * v + 1) (mid tl tr + 1) tr (Z.max l (mid tl tr + 1)) r s1
                  ltac:(lia) ltac:(lia) Hr').
    destruct (sum (S d) (2 * v + 1) (mid tl tr + 1) tr (Z.max l (mid tl tr + 1)) r s1)
      as [[b s2]| |]; done.
Qed.

Lemma update_depth d : forall v tl tr pos val s,
  tl <= tr -> tr - tl + 1 <= 2 ^ Z.of_nat d ->
  update (S d) v tl tr pos val s <> Diverge.
Proof.
  induction d as [|d IH]; intros v tl tr pos val s Hle Hsize; rewrite update_S;
    destruct (Z.eqb_spec tl tr) as [->|Hne]; try apply tree_write_not_Diverge.
  - change (2 ^ Z.of_nat 0) with 1 in Hsize. lia.
  - rewrite Nat2Z.inj_succ, Z.pow_succ_r in Hsize by lia.
    destruct (halves_size tl tr _ ltac:(lia) Hsize) as [Hl Hr].
    pose proof (mid_bounds tl tr ltac:(lia)) as Hm.
    unfold mbind at 1, M_bind at 1.
    destruct (pos <=? mid tl tr).
    + pose proof (IH (2 * v) tl (mid tl tr) pos val s ltac:(lia) Hl).
      destruct (update (S d) (2 * v) tl (mid tl tr) pos val s) as [[u1 s1]| |]; [|done..].
      apply recompute_not_Diverge.
    + pose proof (IH (2 * v + 1) (mid tl tr + 1) tr pos val s ltac:(lia) Hr).
      destruct (update (S d) (2 * v + 1) (mid tl tr + 1) tr pos val s) as [[u1 s1]| |]; [|done..].
      apply recompute_not_Diverge.
Qed.

Lemma build_any_fuel arr f1 f2 v tl tr s r :
  build f1 arr v tl tr s = Done r -> build f2 arr v tl tr s <> Diverge ->
  build f2 arr v tl tr s = Done r.
Proof.
  intros H1 H2. destruct (Nat.le_ge_cases f1 f2) as [Hle|Hle].
  - rewrite (build_fuel_le arr f1 f2) by (done || by rewrite H1). done.
  - rewrite <- (build_fuel_le arr f2 f1) by done. done.
Qed.

Lemma sum_any_fuel f1 f2 v tl tr l r s o :
  sum f1 v tl tr l r s = Done o -> sum f2 v tl tr l r s <> Diverge ->
  sum f2 v tl tr l r s = Done o.
Proof.
  intros H1 H2. destruct (Nat.le_ge_cases f1 f2) as [Hle|Hle].
  - rewrite (sum_fuel_le f1 f2) by (done || by rewrite H1). done.
  - rewrite <- (sum_fuel_le f2 f1) by done. done.
Qed.

Lemma update_any_fuel f1 f2 v tl tr pos val s r :
  update f1 v tl tr pos val s = Done r -> update f2 v tl tr pos val s <> Diverge ->
  update f2 v tl tr pos val s = Done r.
Proof.
  intros H1 H2. destruct (Nat.le_ge_cases f1 f2) as [Hle|Hle].
  - rewrite (update_fuel_le f1 f2) by (done || by rewrite H1). done.
  - rewrite <- (update_fuel_le f2 f1) by done. done.
Qed.

Lemma new_inv_log d arr :
  (1 <= length arr)%nat -> Z.of_nat (length arr) <= 2 ^ Z.of_nat d ->
  exists s, SegmentTree_new (S d) arr = Done s /\
            tree_inv (Z.of_nat (length arr)) arr s.
Proof.
  intros Hn Hd.
  destruct (new_inv (length arr) arr Hn ltac:(lia)) as (s & E & Hinv).
  exists s. split; [|done]. unfold SegmentTree_new in *.
  destruct (build (length arr) arr 1 0 (Z.of_nat (length arr) - 1) _) as [[u s1]| |] eqn:Eb;
    [|done..].
  erewrite build_any_fuel; [exact E | exact Eb |].
  apply build_depth; lia.
Qed.

Lemma update_inv_log d n a s pos val :
  tree_inv n a s -> 0 <= pos <= n - 1 -> n <= 2 ^ Z.of_nat d ->
  exists s', update_pos (S d) n pos val s = Done (tt, s') /\
             tree_inv n (arr_set a pos val) s'.
Proof.
  intros Hinv Hpos Hd. pose proof (inv_n _ _ _ Hinv).
  destruct (update_inv (Z.to_nat n) n a s pos val Hinv Hpos ltac:(lia)) as (s' & E & Hinv').
  exists s'. split; [|done]. unfold update_pos in *.
  eapply update_any_fuel; [exact E|]. apply update_depth; lia.
Qed.

Lemma updates_inv_log d n ops : forall a s,
  tree_inv n a s -> Forall (valid_op n) ops -> n <= 2 ^ Z.of_nat d ->
  exists s', updates (S d) n ops s = Done (tt, s') /\
             tree_inv n (current a ops) s'.
Proof.
  induction ops as [|[pos val] ops IH]; intros a s Hinv Hops Hd.
  - exists s. done.
  - apply Forall_cons in Hops as [[Hpos _] Hops]. cbn in Hpos.
    destruct (update_inv_log d n a s pos val Hinv Hpos Hd) as (s1 & E1 & Hinv1).
    destruct (IH _ s1 Hinv1 Hops Hd) as (s' & E' & Hinv').
    exists s'. split; [|done].
    cbn [updates]. erewrite bind_Done by exact E1. done.
Qed.

Lemma query_value_log d n a s l r :
  tree_inv n a s -> Forall is_ll a -> 0 <= l -> r <= n - 1 -> n <= 2 ^ Z.of_nat d ->
  value (query (S d) n l r s) = Done (ll_sum (range_of a l r)).
Proof.
  intros Hinv Hll Hl Hr Hd. pose proof (inv_n _ _ _ Hinv).
  destruct (query_inv (Z.to_nat n) n a s l r Hinv Hl Hr ltac:(lia)) as (x & s' & E & _ & _ & V).
  unfold query in *. erewrite sum_any_fuel; [|exact E|apply sum_depth; lia].
  cbn. by rewrite V.
Qed.

(** X8.  The recursion of [build], [update] and [sum] is logarithmic: for
    an array of [n <= 2^d] elements a depth of [d + 1] is enough for the
    construction, for every valid update and for every valid query, which
    returns the aggregate of the current elements [l..r].
    The array is short enough for every node number to fit an [int]:
    [4 * n <= int_max]. *)
Theorem logarithmic_depth (arr : list Z) (ops : list (Z * Z)) (l r : Z) (d : nat) :
  4 * Z.of_nat (length arr) <= int_max ->
  (1 <= length arr)%nat -> Forall is_ll arr ->
  Forall (valid_op (Z.of_nat (length arr))) ops ->
  0 <= l -> l <= r -> r <= Z.of_nat (length arr) - 1 ->
  Z.of_nat (length arr) <= 2 ^ Z.of_nat d ->
  exists s,
    tree_after (S d) arr ops = Done s /\
    value (query (S d) (Z.of_nat (length arr)) l r s)
    = Done (ll_sum (range_of (current arr ops) l r)).
Proof.
  intros Hint Hn Hll Hops Hl Hlr Hr Hd.
  destruct (new_inv_log d arr Hn Hd) as (s0 & E0 & Hinv0).
  destruct (updates_inv_log d _ ops arr s0 Hinv0 Hops Hd) as (s & E & Hinv).
  exists s. split; [unfold tree_after; by rewrite E0, E|].
  apply (query_value_log d _ (current arr ops)); [done | | lia..].
  by eapply current_is_ll.
Qed.

Lemma logarithmic_depth_witness :
  exists s,
    tree_after 4 [1; 3; 5; 7; 9; 11; 13; 15] [(7, 0); (2, 4)] = Done s /\
    value (query 4 (Z.of_nat (length [1; 3; 5; 7; 9; 11; 13; 15])) 1 6 s)
    = Done (ll_sum (range_of (current [1; 3; 5; 7; 9; 11; 13; 15] [(7, 0); (2, 4)]) 1 6)).
Proof.
  apply (logarithmic_depth [1; 3; 5; 7; 9; 11; 13; 15] [(7, 0); (2, 4)] 1 6 3).
  - cbn. unfold int_max. lia.
  - cbn. lia.
  - by apply (bool_decide_unpack _).
  - by apply (bool_decide_unpack _).
  - lia.
  - lia.
  - cbn. lia.
  - cbn. lia.
Defined.

Lemma tree_read_touched i s x s' :
  tree_read i s = Done (x, s') -> touched s' = i :: touched s.
Proof.
  unfold tree_read. destruct (vec_at (tree s) i) as [y|]; [|done].
  intros [= <- <-]. done.
Qed.

Lemma tree_write_touched i x s u s' :
  tree_write i x s = Done (u, s') -> touched s' = i :: touched s.
Proof.
  unfold tree_write. destruct (vec_at (tree s) i) as [y|]; [|done].
  intros [= <- <-]. done.
Qed.

(** [update] on an interval of at most [2 ^ d] elements touches at most
    [3 * d + 1] slots: the leaf, and each slot above it with its two
    children. *)
Lemma update_visits d : forall fuel v tl tr pos val s u s',
  tl <= tr -> tr - tl + 1 <= 2 ^ Z.of_nat d ->
  update fuel v tl tr pos val s = Done (u, s') ->
  exists new, touched s' = new ++ touched s /\
              Z.of_nat (length new) <= 3 * Z.of_nat d + 1.
Proof.
  induction d as [|d IH]; intros [|fuel] v tl tr pos val s u s' Hle Hsize; try done;
    rewrite update_S; destruct (Z.eqb_spec tl tr) as [->|Hne];
    try (intros E%tree_write_touched; exists [v]; split; [done | cbn; lia]).
  - change (2 ^ Z.of_nat 0) with 1 in Hsize. lia.
  - rewrite Nat2Z.inj_succ, Z.pow_succ_r in Hsize by lia.
    destruct (halves_size tl tr _ ltac:(lia) Hsize) as [Hl Hr].
    pose proof (mid_bounds tl tr ltac:(lia)) as Hm.
    intros (u1 & s1 & E1 & (a & s3 & E3 & (b & s4 & E4 & E5)%bind_Done_inv
           )%bind_Done_inv)%bind_Done_inv.
    apply tree_read_touched in E3, E4. apply tree_write_touched in E5.
    assert (exists new, touched s1 = new ++ touched s /\
                        Z.of_nat (length new) <= 3 * Z.of_nat d + 1) as (new & En & Hn).
    { destruct (pos <=? mid tl tr); eapply IH; try exact E1; lia. }
    exists (v :: (2 * v + 1) :: (2 * v) :: new). split.
    + rewrite E5, E4, E3, En. done.
    + cbn [length]. lia.
Qed.

(** X4.  [update] is logarithmic: on a tree over [n <= 2^d] elements,
    [update(pos, val)] returns within a recursion depth of [d + 1] and reads
    or writes at most [3 * d + 1] slots.
    The array is short enough for every node number to fit an [int]:
    [4 * n <= int_max]. *)
Theorem update_logarithmic (arr : list Z) (ops : list (Z * Z)) (pos val : Z) (d fuel : nat) :
  4 * Z.of_nat (length arr) <= int_max ->
  (1 <= length arr)%nat ->
  Forall (valid_op (Z.of_nat (length arr))) ops ->
  0 <= pos <= Z.of_nat (length arr) - 1 ->
  Z.of_nat (length arr) <= 2 ^ Z.of_nat d ->
  (length arr <= fuel)%nat ->
  exists s s' new,
    tree_after fuel arr ops = Done s /\
    update_pos (S d) (Z.of_nat (length arr)) pos val s = Done (tt, s') /\
    touched s' = new ++ touched s /\
    Z.of_nat (length new) <= 3 * Z.of_nat d + 1.
Proof.
  intros Hint Hn Hops Hpos Hd Hfuel.
  destruct (tree_after_inv fuel arr ops Hn Hops Hfuel) as (s & E & Hinv).
  destruct (update_inv_log d _ _ s pos val Hinv Hpos Hd) as (s' & E' & _).
  destruct (update_visits d (S d) 1 0 (Z.of_nat (length arr) - 1) pos val s tt s')
    as (new & En & Hlen); [lia | lia | exact E' |].
  exists s, s', new. done.
Qed.

Lemma update_logarithmic_witness :
  exists s s' new,
    tree_after 8 [1; 3; 5; 7; 9; 11; 13; 15] [(0, 2)] = Done s /\
    update_pos 4 (Z.of_nat (length [1; 3; 5; 7; 9; 11; 13; 15])) 5 0 s = Done (tt, s') /\
    touched s' = new ++ touched s /\
    Z.of_nat (length new) <= 3 * Z.of_nat 3 + 1.
Proof.
  apply (update_logarithmic [1; 3; 5; 7; 9; 11; 13; 15] [(0, 2)] 5 0 3 8).
  - cbn. unfold int_max. lia.
  - cbn. lia.
  - by apply (bool_decide_unpack _).
  - cbn. lia.
  - cbn. lia.
  - cbn. lia.
Defined.

(** ** [customSharedPtr]: construction, sharing, destruction *)

Lemma fresh_counter (h : gmap nat Z) : h !! fresh (dom h) = None.
Proof. apply not_elem_of_dom, is_fresh. Qed.

(** X9.  A pointer constructed from a raw pointer has [use_count() == 1]
    and [get()] returns the raw pointer; its counter is a new allocation, so
    every counter that existed keeps its value. *)
Theorem ctor_fresh_count (h : gmap nat Z) (ptr : SharedPtr.pointer) :
  let '(p, h') := SharedPtr.ctor h ptr in
  SharedPtr.use_count h' p = Done 1 /\
  SharedPtr.get p = ptr /\
  (forall blk, is_Some (h !! blk) -> h' !! blk = h !! blk).
Proof.
  unfold SharedPtr.ctor, SharedPtr.use_count. cbn.
  rewrite (lookup_insert_eq h). repeat split.
  intros blk [c Hc].
  apply lookup_insert_ne. intros Heq. rewrite <- Heq, fresh_counter in Hc. done.
Qed.

Lemma copy_assign_effect_witness :
  exists q h',
    SharedPtr.copy_assign (<[0%nat := 1]> ∅) (SharedPtr.mk (Some 7%nat) (SharedPtr.cell 0 0))
    = Done (q, h') /\
    SharedPtr.use_count h' (SharedPtr.mk (Some 7%nat) (SharedPtr.cell 0 0)) = Done (1 + 1) /\
    SharedPtr.use_count h' q = Done (1 + 1).
Proof.
  apply (copy_assign_effect (<[0%nat := 1]> ∅) (SharedPtr.mk (Some 7%nat) (SharedPtr.cell 0 0))
           0 1 7); [reflexivity | reflexivity | reflexivity | lia | lia].
Defined.




Lemma use_count_cell (h : gmap nat Z) ptr blk c :
  h !! blk = Some c ->
  SharedPtr.use_count h (SharedPtr.mk ptr (SharedPtr.cell blk 0)) = Done (ll_wrap c).
Proof. intros Hc. unfold SharedPtr.use_count. cbn. by rewrite Hc. Qed.

Lemma copy_assign_cell (h : gmap nat Z) a blk c :
  h !! blk = Some c ->
  SharedPtr.copy_assign h (SharedPtr.mk (Some a) (SharedPtr.cell blk 0))
  = Done (SharedPtr.mk (Some a) (SharedPtr.cell blk 0),
          <[blk := SharedPtr.size_t_wrap (c + 1)]> h).
Proof. intros Hc. unfold SharedPtr.copy_assign. cbn. by rewrite Hc. Qed.

(** Destroying one of several owners only decrements the counter. *)
Lemma dtor_shared (h : gmap nat Z) (live : gset nat) ptr blk c :
  h !! blk = Some c -> SharedPtr.size_t_wrap (c - 1) <> 0 ->
  SharedPtr.dtor h live (SharedPtr.mk ptr (SharedPtr.cell blk 0))
  = Done (<[blk := SharedPtr.size_t_wrap (c - 1)]> h, live).
Proof.
  intros Hc Hne. unfold SharedPtr.dtor. cbn. rewrite Hc.
  by destruct (Z.eqb_spec (SharedPtr.size_t_wrap (c - 1)) 0).
Qed.

(** Destroying the last owner deletes the object and the counter. *)
Lemma dtor_last (h : gmap nat Z) (live : gset nat) a blk :
  h !! blk = Some 1 -> a ∈ live ->
  SharedPtr.dtor h live (SharedPtr.mk (Some a) (SharedPtr.cell blk 0))
  = Done (delete blk h, live ∖ {[a]}).
Proof.
  intros Hc Ha. unfold SharedPtr.dtor. cbn. rewrite Hc. cbn.
  rewrite decide_True by done. by rewrite delete_insert_eq.
Qed.

(** X11.  Move construction hands over pointer and counter without touching
    the count.  After [p] is constructed for the live object [a] and [q] is
    move-constructed from [p]: [q] has [use_count() == 1] and [get() == a];
    [p] is null, its [use_count()] dereferences a null pointer and its
    destruction changes nothing; destroying [q] then deletes the object and
    releases the counter. *)
Theorem move_lifecycle (h : gmap nat Z) (live : gset nat) (a : nat) :
  a ∈ live ->
  exists p h1 q p',
    SharedPtr.ctor h (Some a) = (p, h1) /\
    SharedPtr.move_ctor p = (q, p') /\
    SharedPtr.use_count h1 q = Done 1 /\
    SharedPtr.get q = Some a /\
    SharedPtr.get p' = None /\
    SharedPtr.use_count h1 p' = Fault /\
    SharedPtr.dtor h1 live p' = Done (h1, live) /\
    SharedPtr.dtor h1 live q = Done (h, live ∖ {[a]}).
Proof.
  intros Ha. pose proof (fresh_counter h) as Hf.
  set (blk := fresh (dom h)) in *.
  exists (SharedPtr.mk (Some a) (SharedPtr.cell blk 0)), (<[blk := 1]> h),
    (SharedPtr.mk (Some a) (SharedPtr.cell blk 0)), (SharedPtr.mk None SharedPtr.null_count).
  split; [reflexivity|]. split; [reflexivity|].
  split; [by rewrite (use_count_cell _ _ blk 1) by apply lookup_insert_eq|].
  do 4 (split; [reflexivity|]).
  rewrite (dtor_last _ _ a blk) by (apply lookup_insert_eq || done).
  do 2 f_equal. rewrite delete_insert_eq. by apply delete_id.
Qed.

Lemma move_lifecycle_witness :
  exists p h1 q p',
    SharedPtr.ctor ∅ (Some 7%nat) = (p, h1) /\
    SharedPtr.move_ctor p = (q, p') /\
    SharedPtr.use_count h1 q = Done 1 /\
    SharedPtr.get q = Some 7%nat /\
    SharedPtr.get p' = None /\
    SharedPtr.use_count h1 p' = Fault /\
    SharedPtr.dtor h1 {[7%nat]} p' = Done (h1, {[7%nat]}) /\
    SharedPtr.dtor h1 {[7%nat]} q = Done (∅, {[7%nat]} ∖ {[7%nat]}).
Proof. apply (move_lifecycle ∅ {[7%nat]} 7). by apply elem_of_singleton. Defined.

(** X12.  Sharing by copy assignment: after [p] is constructed for the live
    object [a] and [q = p], destroying [q] leaves the object live and [p]
    with [use_count() == 1]; destroying [p] next deletes the object and
    releases the counter, leaving the counters as they were before [p]. *)
Theorem shared_lifecycle (h : gmap nat Z) (live : gset nat) (a : nat) :
  a ∈ live ->
  exists p h1 q h2 h3,
    SharedPtr.ctor h (Some a) = (p, h1) /\
    SharedPtr.copy_assign h1 p = Done (q, h2) /\
    SharedPtr.use_count h2 p = Done 2 /\
    SharedPtr.use_count h2 q = Done 2 /\
    SharedPtr.dtor h2 live q = Done (h3, live) /\
    SharedPtr.use_count h3 p = Done 1 /\
    SharedPtr.dtor h3 live p = Done (h, live ∖ {[a]}).
Proof.
  intros Ha. pose proof (fresh_counter h) as Hf.
  set (blk := fresh (dom h)) in *.
  set (p := SharedPtr.mk (Some a) (SharedPtr.cell blk 0)).
  exists p, (<[blk := 1]> h), p, (<[blk := 2]> (<[blk := 1]> h)),
    (<[blk := 1]> (<[blk := 2]> (<[blk := 1]> h))).
  subst p. split; [reflexivity|].
  split; [by rewrite (copy_assign_cell _ a blk 1) by apply lookup_insert_eq|].
  split; [by rewrite (use_count_cell _ _ blk 2) by apply lookup_insert_eq|].
  split; [by rewrite (use_count_cell _ _ blk 2) by apply lookup_insert_eq|].
  split; [by rewrite (dtor_shared _ _ _ blk 2) by (apply lookup_insert_eq || done)|].
  split; [by rewrite (use_count_cell _ _ blk 1) by apply lookup_insert_eq|].
  rewrite (dtor_last _ _ a blk) by (apply lookup_insert_eq || done).
  do 2 f_equal. rewrite !insert_insert_eq, delete_insert_eq. by apply delete_id.
Qed.

Lemma shared_lifecycle_witness :
  exists p h1 q h2 h3,
    SharedPtr.ctor ∅ (Some 7%nat) = (p, h1) /\
    SharedPtr.copy_assign h1 p = Done (q, h2) /\
    SharedPtr.use_count h2 p = Done 2 /\
    SharedPtr.use_count h2 q = Done 2 /\
    SharedPtr.dtor h2 {[7%nat]} q = Done (h3, {[7%nat]}) /\
    SharedPtr.use_count h3 p = Done 1 /\
    SharedPtr.dtor h3 {[7%nat]} p = Done (∅, {[7%nat]} ∖ {[7%nat]}).
Proof. apply (shared_lifecycle ∅ {[7%nat]} 7). by apply elem_of_singleton. Defined.

(** X13.  What the copy constructor's missing increment leads to: after
    [p] is constructed for the live object [a] and [q] is copy-constructed
    from [p], destroying [p] deletes the object although [q] still points to
    it, and destroying [q] decrements the cell after the counter, outside
    its allocation. *)
Theorem copy_ctor_then_destroy (h : gmap nat Z) (live : gset nat) (a : nat) :
  a ∈ live ->
  exists p h1 q h2,
    SharedPtr.ctor h (Some a) = (p, h1) /\
    SharedPtr.copy_ctor h1 p = Done (q, h1) /\
    SharedPtr.dtor h1 live p = Done (h2, live ∖ {[a]}) /\
    SharedPtr.get q = Some a /\ (a ∉ live ∖ {[a]}) /\
    SharedPtr.dtor h1 live q = Fault.
Proof.
  intros Ha. set (blk := fresh (dom h)).
  exists (SharedPtr.mk (Some a) (SharedPtr.cell blk 0)), (<[blk := 1]> h),
    (SharedPtr.mk (Some a) (SharedPtr.cell blk 1)), (delete blk (<[blk := 1]> h)).
  split; [reflexivity|]. split; [reflexivity|].
  split; [by rewrite (dtor_last _ _ a blk) by (apply lookup_insert_eq || done)|].
  split; [reflexivity|]. split; [|reflexivity].
  rewrite elem_of_difference, elem_of_singleton. intros [_ H]. by apply H.
Qed.

Lemma copy_ctor_then_destroy_witness :
  exists p h1 q h2,
    SharedPtr.ctor ∅ (Some 7%nat) = (p, h1) /\
    SharedPtr.copy_ctor h1 p = Done (q, h1) /\
    SharedPtr.dtor h1 {[7%nat]} p = Done (h2, {[7%nat]} ∖ {[7%nat]}) /\
    SharedPtr.get q = Some 7%nat /\ (7%nat ∉ ({[7%nat]} ∖ {[7%nat]} : gset nat)) /\
    SharedPtr.dtor h1 {[7%nat]} q = Fault.
Proof. apply (copy_ctor_then_destroy ∅ {[7%nat]} 7). by apply elem_of_singleton. Defined.

(** ** [customUniquePointer]: unique ownership *)

Ltac inv_lookup :=
  repeat match goal with
  | H : <[_ := _]> _ !! _ = Some _ |- _ =>
      apply lookup_insert_Some in H as [[? ?]|[? H]]
  | H : delete _ _ !! _ = Some _ |- _ =>
      apply lookup_delete_Some in H as [? H]
  end.

Lemma move_assign_ne (w : UniquePtr.world) this other t o :
  this <> other ->
  UniquePtr.objs w !! this = Some t -> UniquePtr.objs w !! other = Some o ->
  UniquePtr.move_assign w this other
  = Some (UniquePtr.mkWorld
            (<[this := UniquePtr.mk (UniquePtr.mPtr o) (UniquePtr.mDeleter o)]>
               (<[this := UniquePtr.mk (UniquePtr.mPtr o) (UniquePtr.mDeleter t)]>
                  (<[other := UniquePtr.mk None (UniquePtr.mDeleter o)]> (UniquePtr.objs w))))
            (UniquePtr.call (UniquePtr.mDeleter t) (UniquePtr.mPtr t) (UniquePtr.live w))).
Proof.
  intros Hne Ht Ho. unfold UniquePtr.move_assign, UniquePtr.exchange_mPtr.
  rewrite Ht, Ho. cbn.
  rewrite (lookup_insert_ne _ other this) by done. rewrite Ht. cbn.
  rewrite (lookup_insert_ne _ this other) by done. rewrite (lookup_insert_eq _ other). cbn.
  rewrite (lookup_insert_eq _ this). done.
Qed.

Lemma move_assign_self (w : UniquePtr.world) x o :
  UniquePtr.objs w !! x = Some o ->
  UniquePtr.move_assign w x x
  = Some (UniquePtr.mkWorld
            (<[x := UniquePtr.mk (UniquePtr.mPtr o) (UniquePtr.mDeleter o)]>
               (<[x := UniquePtr.mk (UniquePtr.mPtr o) (UniquePtr.mDeleter o)]>
                  (<[x := UniquePtr.mk None (UniquePtr.mDeleter o)]> (UniquePtr.objs w))))
            (UniquePtr.call (UniquePtr.mDeleter o) (UniquePtr.mPtr o) (UniquePtr.live w))).
Proof.
  intros Ho. unfold UniquePtr.move_assign, UniquePtr.exchange_mPtr.
  rewrite Ho. cbn. rewrite (lookup_insert_eq _ x). cbn.
  rewrite (lookup_insert_eq _ x). done.
Qed.

Lemma move_ctor_new (w : UniquePtr.world) this other o :
  UniquePtr.objs w !! this = None -> UniquePtr.objs w !! other = Some o ->
  UniquePtr.move_ctor w this other
  = Some (UniquePtr.mkWorld
            (<[this := UniquePtr.mk (UniquePtr.mPtr o) (UniquePtr.mDeleter o)]>
               (<[other := UniquePtr.mk None (UniquePtr.mDeleter o)]> (UniquePtr.objs w)))
            (UniquePtr.live w)).
Proof.
  intros Ht Ho. unfold UniquePtr.move_ctor, UniquePtr.exchange_mPtr.
  rewrite Ht, Ho. cbn. rewrite (lookup_insert_eq _ other). done.
Qed.

(** The converting move constructor does what the move constructor does. *)
Lemma move_ctor_from_eq (w : UniquePtr.world) this u :
  UniquePtr.move_ctor_from w this u = UniquePtr.move_ctor w this u.
Proof.
  unfold UniquePtr.move_ctor_from, UniquePtr.move_ctor, UniquePtr.release.
  destruct (UniquePtr.objs w !! this); [done|].
  by destruct (UniquePtr.exchange_mPtr (UniquePtr.objs w) u) as [[p os1]|].
Qed.

Lemma swap_ne (w : UniquePtr.world) x y ox oy :
  x <> y -> UniquePtr.objs w !! x = Some ox -> UniquePtr.objs w !! y = Some oy ->
  UniquePtr.swap w x y
  = Some (UniquePtr.mkWorld
            (<[y := UniquePtr.mk (UniquePtr.mPtr ox) (UniquePtr.mDeleter ox)]>
               (<[x := UniquePtr.mk (UniquePtr.mPtr oy) (UniquePtr.mDeleter oy)]>
                  (<[y := UniquePtr.mk (UniquePtr.mPtr ox) (UniquePtr.mDeleter oy)]>
                     (<[x := UniquePtr.mk (UniquePtr.mPtr oy) (UniquePtr.mDeleter ox)]>
                        (UniquePtr.objs w)))))
            (UniquePtr.live w)).
Proof.
  intros Hne Hx Hy. unfold UniquePtr.swap. rewrite Hx, Hy. cbn.
  rewrite (lookup_insert_ne _ x y) by done. rewrite Hy. cbn.
  rewrite (lookup_insert_ne _ y x) by done. rewrite (lookup_insert_eq _ x). cbn.
  rewrite (lookup_insert_eq _ y). cbn.
  rewrite (lookup_insert_ne _ x y) by done. rewrite (lookup_insert_eq _ y). done.
Qed.

Lemma swap_self (w : UniquePtr.world) x ox :
  UniquePtr.objs w !! x = Some ox ->
  UniquePtr.swap w x x
  = Some (UniquePtr.mkWorld
            (<[x := UniquePtr.mk (UniquePtr.mPtr ox) (UniquePtr.mDeleter ox)]>
               (<[x := UniquePtr.mk (UniquePtr.mPtr ox) (UniquePtr.mDeleter ox)]>
                  (<[x := UniquePtr.mk (UniquePtr.mPtr ox) (UniquePtr.mDeleter ox)]>
                     (<[x := UniquePtr.mk (UniquePtr.mPtr ox) (UniquePtr.mDeleter ox)]>
                        (UniquePtr.objs w)))))
            (UniquePtr.live w)).
Proof.
  intros Hx. unfold UniquePtr.swap. rewrite Hx. cbn.
  rewrite (lookup_insert_eq _ x). cbn.
  rewrite (lookup_insert_eq _ x). cbn.
  rewrite (lookup_insert_eq _ x). done.
Qed.

Lemma owns_empty : UniquePtr.owns (UniquePtr.mkWorld ∅ ∅).
Proof. split; [|split]; cbn; intros; by simplify_map_eq. Qed.

Lemma owns_make_unique w x a w' :
  UniquePtr.owns w -> UniquePtr.make_unique w x a = Some w' -> UniquePtr.owns w'.
Proof.
  intros (Hu & Hl & Hd). unfold UniquePtr.make_unique, UniquePtr.ctor.
  destruct (decide (a ∈ UniquePtr.live w)) as [|Ha]; [done|]. cbn.
  destruct (UniquePtr.objs w !! x) as [ox|] eqn:Hx; [done|]. intros [= <-].
  split; [|split]; cbn.
  - intros x' y' ox' oy' b Hx' Hy' Hax Hay. inv_lookup; simplify_eq/=; naive_solver.
  - intros x' ox' b Hx' Hax. inv_lookup; simplify_eq/=; set_solver.
  - intros x' ox' Hx'. inv_lookup; simplify_eq/=; eauto.
Qed.

Lemma owns_move_ctor w this other w' :
  UniquePtr.owns w -> UniquePtr.move_ctor w this other = Some w' -> UniquePtr.owns w'.
Proof.
  intros (Hu & Hl & Hd) H.
  destruct (UniquePtr.objs w !! this) as [t|] eqn:Ht;
    [by unfold UniquePtr.move_ctor in H; rewrite Ht in H|].
  destruct (UniquePtr.objs w !! other) as [o|] eqn:Ho;
    [|by unfold UniquePtr.move_ctor, UniquePtr.exchange_mPtr in H; rewrite Ht, Ho in H].
  rewrite (move_ctor_new _ _ _ _ Ht Ho) in H. injection H as <-.
  split; [|split]; cbn.
  - intros x y ox oy a Hx Hy Hax Hay. inv_lookup; simplify_eq/=; naive_solver.
  - intros x ox a Hx Hax. inv_lookup; simplify_eq/=; eauto.
  - intros x ox Hx. inv_lookup; simplify_eq/=; eauto.
Qed.

Lemma owns_move_assign w this other w' :
  UniquePtr.owns w -> this <> other ->
  UniquePtr.move_assign w this other = Some w' -> UniquePtr.owns w'.
Proof.
  intros (Hu & Hl & Hd) Hne H.
  destruct (UniquePtr.objs w !! this) as [t|] eqn:Ht;
    [|by unfold UniquePtr.move_assign in H; rewrite Ht in H].
  destruct (UniquePtr.objs w !! other) as [o|] eqn:Ho;
    [|by unfold UniquePtr.move_assign, UniquePtr.exchange_mPtr in H; rewrite Ht, Ho in H].
  rewrite (move_assign_ne _ _ _ _ _ Hne Ht Ho) in H. injection H as <-.
  rewrite (Hd _ _ Ht).
  split; [|split]; cbn.
  - intros x y ox oy a Hx Hy Hax Hay. inv_lookup; simplify_eq/=; naive_solver.
  - intros x ox a Hx Hax. inv_lookup; simplify_eq/=.
    + destruct (UniquePtr.mPtr t) as [b|] eqn:Hb; cbn; [|by eauto].
      apply elem_of_difference. split; [by eauto|].
      rewrite elem_of_singleton. intros ->. apply Hne. by eapply Hu.
    + destruct (UniquePtr.mPtr t) as [b|] eqn:Hb; cbn; [|by eauto].
      apply elem_of_difference. split; [by eauto|].
      rewrite elem_of_singleton. intros ->. naive_solver.
  - intros x ox Hx. inv_lookup; simplify_eq/=; eauto.
Qed.

Lemma owns_assign_null w x w' :
  UniquePtr.owns w -> UniquePtr.assign_null w x = Some w' -> UniquePtr.owns w'.
Proof.
  intros (Hu & Hl & Hd). unfold UniquePtr.assign_null.
  destruct (UniquePtr.objs w !! x) as [o|] eqn:Ho; [|done]. intros [= <-].
  rewrite (Hd _ _ Ho).
  split; [|split]; cbn.
  - intros x' y' ox' oy' a Hx' Hy' Hax Hay. inv_lookup; simplify_eq/=; naive_solver.
  - intros x' ox' a Hx' Hax. inv_lookup; simplify_eq/=.
    destruct (UniquePtr.mPtr o) as [b|] eqn:Hb; cbn; [|by eauto].
    apply elem_of_difference. split; [by eauto|].
    rewrite elem_of_singleton. intros ->. naive_solver.
  - intros x' ox' Hx'. inv_lookup; simplify_eq/=; eauto.
Qed.

Lemma owns_release w x p w' :
  UniquePtr.owns w -> UniquePtr.release w x = Some (p, w') -> UniquePtr.owns w'.
Proof.
  intros (Hu & Hl & Hd). unfold UniquePtr.release, UniquePtr.exchange_mPtr.
  destruct (UniquePtr.objs w !! x) as [o|] eqn:Ho; [|done]. intros [= <- <-].
  split; [|split]; cbn.
  - intros x' y' ox' oy' a Hx' Hy' Hax Hay. inv_lookup; simplify_eq/=; naive_solver.
  - intros x' ox' a Hx' Hax. inv_lookup; simplify_eq/=; eauto.
  - intros x' ox' Hx'. inv_lookup; simplify_eq/=; eauto.
Qed.

Lemma owns_dtor w x w' :
  UniquePtr.owns w -> UniquePtr.dtor w x = Some w' -> UniquePtr.owns w'.
Proof.
  intros (Hu & Hl & Hd). unfold UniquePtr.dtor, UniquePtr.exchange_mPtr.
  destruct (UniquePtr.objs w !! x) as [o|] eqn:Ho; [|done]. cbn.
  rewrite (lookup_insert_eq _ x). cbn. intros [= <-].
  rewrite (Hd _ _ Ho).
  split; [|split]; cbn.
  - intros x' y' ox' oy' a Hx' Hy' Hax Hay. inv_lookup; simplify_eq/=; naive_solver.
  - intros x' ox' a Hx' Hax. inv_lookup; simplify_eq/=.
    destruct (UniquePtr.mPtr o) as [b|] eqn:Hb; cbn; [|by eauto].
    apply elem_of_difference. split; [by eauto|].
    rewrite elem_of_singleton. intros ->. naive_solver.
  - intros x' ox' Hx'. inv_lookup; simplify_eq/=; eauto.
Qed.

Lemma owns_swap w x y w' :
  UniquePtr.owns w -> UniquePtr.swap w x y = Some w' -> UniquePtr.owns w'.
Proof.
  intros (Hu & Hl & Hd) H.
  destruct (UniquePtr.objs w !! x) as [ox|] eqn:Hx;
    [|by unfold UniquePtr.swap in H; rewrite Hx in H].
  destruct (UniquePtr.objs w !! y) as [oy|] eqn:Hy;
    [|by unfold UniquePtr.swap in H; rewrite Hx, Hy in H].
  destruct (decide (x = y)) as [->|Hne].
  - rewrite (swap_self _ _ _ Hx) in H. injection H as <-.
    split; [|split]; cbn.
    + intros x' y' ox' oy' a Hx' Hy' Hax Hay. inv_lookup; simplify_eq/=; naive_solver.
    + intros x' ox' a Hx' Hax. inv_lookup; simplify_eq/=; eauto.
    + intros x' ox' Hx'. inv_lookup; simplify_eq/=; eauto.
  - rewrite (swap_ne _ _ _ _ _ Hne Hx Hy) in H. injection H as <-.
    split; [|split]; cbn.
    + intros x' y' ox' oy' a Hx' Hy' Hax Hay. inv_lookup; simplify_eq/=; naive_solver.
    + intros x' ox' a Hx' Hax. inv_lookup; simplify_eq/=; eauto.
    + intros x' ox' Hx'. inv_lookup; simplify_eq/=; eauto.
Qed.

Lemma owns_exec w o w' :
  UniquePtr.owns w -> UniquePtr.no_self_move o -> UniquePtr.exec w o = Some w' ->
  UniquePtr.owns w'.
Proof.
  intros Hw Hno. destruct o as [x a|this other|this u|this other|x|x|x y|x]; cbn.
  - by apply owns_make_unique.
  - by apply owns_move_ctor.
  - rewrite move_ctor_from_eq. by apply owns_move_ctor.
  - by apply owns_move_assign.
  - by apply owns_assign_null.
  - destruct (UniquePtr.release w x) as [[p w1]|] eqn:E; [|done].
    intros [= <-]. by eapply owns_release.
  - by apply owns_swap.
  - by apply owns_dtor.
Qed.

Lemma owns_run os : forall w w',
  UniquePtr.owns w -> Forall UniquePtr.no_self_move os -> UniquePtr.run w os = Some w' ->
  UniquePtr.owns w'.
Proof.
  induction os as [|o os IH]; intros w w' Hw Hno; cbn.
  - by intros [= <-].
  - apply Forall_cons in Hno as [Ho Hos].
    destruct (UniquePtr.exec w o) as [w1|] eqn:E; [|done]. cbn.
    apply IH; [by eapply owns_exec | done].
Qed.

(** X16.  Unique ownership is an invariant.  In a program that starts
    without objects and uses [make_unique], the move constructors, move
    assignment (never of an object to itself), [= nullptr], [release],
    [swap] and destruction, no allocation is ever held by two objects and
    every pointer an object holds is to a live allocation: nothing is
    deleted twice and no object is left dangling. *)
Theorem unique_ownership (os : list UniquePtr.op) (w : UniquePtr.world) :
  Forall UniquePtr.no_self_move os ->
  UniquePtr.run (UniquePtr.mkWorld ∅ ∅) os = Some w ->
  (forall x y ox oy a,
      UniquePtr.objs w !! x = Some ox -> UniquePtr.objs w !! y = Some oy ->
      UniquePtr.mPtr ox = Some a -> UniquePtr.mPtr oy = Some a -> x = y) /\
  (forall x ox a,
      UniquePtr.objs w !! x = Some ox -> UniquePtr.mPtr ox = Some a ->
      a ∈ UniquePtr.live w).
Proof.
  intros Hno Hrun.
  destruct (owns_run os _ w owns_empty Hno Hrun) as (Hu & Hl & _). done.
Qed.

Lemma unique_ownership_witness :
  exists w,
    UniquePtr.run (UniquePtr.mkWorld ∅ ∅)
      [UniquePtr.MakeUnique 1 0; UniquePtr.MakeUnique 2 1; UniquePtr.MoveAssign 2 1;
       UniquePtr.Swap 1 2; UniquePtr.MoveCtor 3 1; UniquePtr.Release 2;
       UniquePtr.MakeUnique 4 1; UniquePtr.Dtor 3] = Some w /\
    (forall x y ox oy a,
        UniquePtr.objs w !! x = Some ox -> UniquePtr.objs w !! y = Some oy ->
        UniquePtr.mPtr ox = Some a -> UniquePtr.mPtr oy = Some a -> x = y) /\
    (forall x ox a,
        UniquePtr.objs w !! x = Some ox -> UniquePtr.mPtr ox = Some a ->
        a ∈ UniquePtr.live w).
Proof.
  eexists. split; [reflexivity|].
  apply (unique_ownership
           [UniquePtr.MakeUnique 1 0; UniquePtr.MakeUnique 2 1; UniquePtr.MoveAssign 2 1;
            UniquePtr.Swap 1 2; UniquePtr.MoveCtor 3 1; UniquePtr.Release 2;
            UniquePtr.MakeUnique 4 1; UniquePtr.Dtor 3]).
  - by apply (bool_decide_unpack _).
  - reflexivity.
Defined.

(** X17.  Move assignment between two objects under unique ownership
    deletes the allocation the destination held, and only that one: the
    allocation of the source stays live. *)
Theorem move_assign_frees_destination (w : UniquePtr.world) (this other : nat)
    (t o : UniquePtr.customUniquePointer) :
  UniquePtr.owns w -> this <> other ->
  UniquePtr.objs w !! this = Some t -> UniquePtr.objs w !! other = Some o ->
  exists w',
    UniquePtr.move_assign w this other = Some w' /\
    UniquePtr.live w' = match UniquePtr.mPtr t with
                        | Some b => UniquePtr.live w ∖ {[b]}
                        | None => UniquePtr.live w
                        end /\
    (forall a, UniquePtr.mPtr o = Some a -> a ∈ UniquePtr.live w').
Proof.
  intros (Hu & Hl & Hd) Hne Ht Ho.
  rewrite (move_assign_ne _ _ _ _ _ Hne Ht Ho). eexists. split; [done|]. cbn.
  rewrite (Hd _ _ Ht). cbn. split; [done|]. intros a Ha.
  destruct (UniquePtr.mPtr t) as [b|] eqn:Hb; [|by eauto].
  apply elem_of_difference. split; [by eauto|].
  rewrite elem_of_singleton. intros ->. apply Hne. by eapply Hu.
Qed.

Lemma main_world_owns : UniquePtr.owns UniquePtr.main_world.
Proof.
  unfold UniquePtr.main_world.
  split; [|split]; cbn.
  - intros x y ox oy a Hx Hy Hax Hay. inv_lookup; by simplify_map_eq.
  - intros x ox a Hx Hax. inv_lookup; simplify_map_eq; set_solver.
  - intros x ox Hx. inv_lookup; by simplify_map_eq.
Qed.

Lemma move_assign_frees_destination_witness :
  exists w',
    UniquePtr.move_assign UniquePtr.main_world 2 1 = Some w' /\
    UniquePtr.live w' = UniquePtr.live UniquePtr.main_world ∖ {[1%nat]} /\
    (forall a, Some 0%nat = Some a -> a ∈ UniquePtr.live w').
Proof.
  apply (move_assign_frees_destination UniquePtr.main_world 2 1
           (UniquePtr.mk (Some 1%nat) UniquePtr.default_delete)
           (UniquePtr.mk (Some 0%nat) UniquePtr.default_delete)).
  - apply main_world_owns.
  - lia.
  - reflexivity.
  - reflexivity.
Defined.

(** X18.  Move assignment of an object to itself: the deleter is called on
    the pointer and the object then takes the pointer back, so with
    [std::default_delete] it ends up holding a deleted allocation. *)
Theorem self_move_assign_dangles (w : UniquePtr.world) (x a : nat) (o : UniquePtr.customUniquePointer) :
  UniquePtr.objs w !! x = Some o ->
  UniquePtr.mPtr o = Some a -> UniquePtr.mDeleter o = UniquePtr.default_delete ->
  exists w',
    UniquePtr.move_assign w x x = Some w' /\
    UniquePtr.get w' x = Some (Some a) /\
    UniquePtr.to_bool w' x = Some true /\
    a ∉ UniquePtr.live w'.
Proof.
  intros Ho Ha Hd. rewrite (move_assign_self _ _ _ Ho). eexists. split; [done|].
  unfold UniquePtr.get, UniquePtr.to_bool. cbn.
  rewrite !(lookup_insert_eq _ x). cbn. rewrite Ha, Hd. cbn.
  repeat split. rewrite elem_of_difference, elem_of_singleton. intros [_ H]. by apply H.
Qed.

Lemma self_move_assign_dangles_witness :
  exists w',
    UniquePtr.move_assign UniquePtr.main_world 2 2 = Some w' /\
    UniquePtr.get w' 2%nat = Some (Some 1%nat) /\
    UniquePtr.to_bool w' 2%nat = Some true /\
    1%nat ∉ UniquePtr.live w'.
Proof.
  apply (self_move_assign_dangles UniquePtr.main_world 2 1
           (UniquePtr.mk (Some 1%nat) UniquePtr.default_delete)); reflexivity.
Defined.

(** X14.  [release()] returns the pointer and leaves the object null
    without deleting anything, and destroying the object afterwards deletes
    nothing either: the allocation is the caller's. *)
Theorem release_gives_up_ownership (w : UniquePtr.world) (x : nat) (o : UniquePtr.customUniquePointer) :
  UniquePtr.objs w !! x = Some o ->
  UniquePtr.mDeleter o = UniquePtr.default_delete ->
  exists w1 w2,
    UniquePtr.release w x = Some (UniquePtr.mPtr o, w1) /\
    UniquePtr.get w1 x = Some None /\
    UniquePtr.live w1 = UniquePtr.live w /\
    UniquePtr.dtor w1 x = Some w2 /\
    UniquePtr.live w2 = UniquePtr.live w /\
    UniquePtr.objs w2 !! x = None.
Proof.
  intros Ho Hd. unfold UniquePtr.release, UniquePtr.dtor, UniquePtr.exchange_mPtr, UniquePtr.get.
  rewrite Ho. cbn. eexists _, _. split; [done|]. cbn.
  rewrite !(lookup_insert_eq _ x). cbn. rewrite (lookup_insert_eq _ x). cbn.
  repeat split; [by rewrite Hd | apply lookup_delete_eq].
Qed.

Lemma release_gives_up_ownership_witness :
  exists w1 w2,
    UniquePtr.release UniquePtr.main_world 1 = Some (Some 0%nat, w1) /\
    UniquePtr.get w1 1%nat = Some None /\
    UniquePtr.live w1 = UniquePtr.live UniquePtr.main_world /\
    UniquePtr.dtor w1 1 = Some w2 /\
    UniquePtr.live w2 = UniquePtr.live UniquePtr.main_world /\
    UniquePtr.objs w2 !! 1%nat = None.
Proof.
  apply (release_gives_up_ownership UniquePtr.main_world 1
           (UniquePtr.mk (Some 0%nat) UniquePtr.default_delete)); reflexivity.
Defined.

(** X15.  [swap] exchanges what two objects hold, deletes nothing, and
    swapping again restores the world; this includes swapping an object
    with itself. *)
Theorem swap_involutive (w w1 : UniquePtr.world) (x y : nat) :
  UniquePtr.swap w x y = Some w1 ->
  UniquePtr.get w1 x = UniquePtr.get w y /\
  UniquePtr.get w1 y = UniquePtr.get w x /\
  UniquePtr.live w1 = UniquePtr.live w /\
  UniquePtr.swap w1 x y = Some w.
Proof.
  intros H.
  destruct (UniquePtr.objs w !! x) as [ox|] eqn:Hx;
    [|by unfold UniquePtr.swap in H; rewrite Hx in H].
  destruct (UniquePtr.objs w !! y) as [oy|] eqn:Hy;
    [|by unfold UniquePtr.swap in H; rewrite Hx, Hy in H].
  unfold UniquePtr.get.
  destruct (decide (x = y)) as [->|Hne].
  - rewrite (swap_self _ _ _ Hx) in H. injection H as <-. cbn.
    split; [by rewrite (lookup_insert_eq _ y), Hx|].
    split; [by rewrite (lookup_insert_eq _ y), Hx|].
    split; [done|].
    erewrite swap_self by (cbn; apply lookup_insert_eq). cbn.
    destruct w as [os lv]. cbn in *. do 2 f_equal.
    apply map_eq. intros i. destruct (decide (i = y)) as [->|Hi].
    + rewrite (lookup_insert_eq _ y), Hx. by destruct ox.
    + by rewrite !(lookup_insert_ne _ y i).
  - rewrite (swap_ne _ _ _ _ _ Hne Hx Hy) in H. injection H as <-. cbn.
    split; [by rewrite (lookup_insert_ne _ y x), (lookup_insert_eq _ x), Hy by done|].
    split; [by rewrite (lookup_insert_eq _ y), Hx|].
    split; [done|].
    erewrite swap_ne; [|done| |].
    2: { cbn. rewrite (lookup_insert_ne _ y x) by done. apply lookup_insert_eq. }
    2: { cbn. apply lookup_insert_eq. }
    cbn. destruct w as [os lv]. cbn in *. do 2 f_equal.
    apply map_eq. intros i. destruct (decide (i = y)) as [->|Hiy].
    + rewrite (lookup_insert_eq _ y), Hy. by destruct oy.
    + rewrite (lookup_insert_ne _ y i) by done.
      destruct (decide (i = x)) as [->|Hix].
      * rewrite (lookup_insert_eq _ x), Hx. by destruct ox.
      * repeat first [rewrite (lookup_insert_ne _ x i) by done
                     |rewrite (lookup_insert_ne _ y i) by done].
        done.
Qed.

Lemma swap_involutive_witness :
  exists w1,
    UniquePtr.swap UniquePtr.main_world 1 2 = Some w1 /\
    UniquePtr.get w1 1%nat = UniquePtr.get UniquePtr.main_world 2%nat /\
    UniquePtr.get w1 2%nat = UniquePtr.get UniquePtr.main_world 1%nat /\
    UniquePtr.live w1 = UniquePtr.live UniquePtr.main_world /\
    UniquePtr.swap w1 1 2 = Some UniquePtr.main_world.
Proof.
  eexists. split; [reflexivity|].
  apply (swap_involutive UniquePtr.main_world _ 1 2). reflexivity.
Defined.

(** ** The memoised Fibonacci function *)

Lemma F_rec k : Fibonacci.F (S (S k)) = Fibonacci.F k + Fibonacci.F (S k).
Proof.
  unfold Fibonacci.F. cbn [Fibonacci.fib_pair].
  by destruct (Fibonacci.fib_pair k) as [a b].
Qed.

Lemma F_bounds k : 0 <= Fibonacci.F k /\ Fibonacci.F k <= Fibonacci.F (S k).
Proof.
  induction k as [|k [IH0 IH1]]; [by vm_compute|].
  rewrite F_rec. lia.
Qed.

Lemma F_mono k k' : (k <= k')%nat -> Fibonacci.F k <= Fibonacci.F k'.
Proof.
  induction 1 as [|k' Hle IH]; [lia|]. pose proof (F_bounds k'). lia.
Qed.

Lemma dp_ok_init : Fibonacci.dp_ok Fibonacci.dp_init.
Proof.
  split; [reflexivity|]. intros i m Hi. left.
  unfold Fibonacci.dp_init, Fibonacci.make_filled_array in Hi.
  by apply lookup_replicate in Hi as [-> _].
Qed.

Lemma fibonacci_S fuel n dp :
  Fibonacci.fibonacci (S fuel) n dp =
  if n <=? 2 then Done (1, dp)
  else match vec_at dp n with
       | None => Fault
       | Some m =>
           if negb (m =? -1) then Done (m, dp)
           else match Fibonacci.fibonacci fuel (n - 1) dp with
                | Done (a, dp1) =>
                    match Fibonacci.fibonacci fuel (n - 2) dp1 with
                    | Done (b, dp2) =>
                        match vec_at dp2 n with
                        | Some _ =>
                            let dp3 := <[Z.to_nat n := ll_add a b]> dp2 in
                            match vec_at dp3 n with
                            | Some r => Done (r, dp3)
                            | None => Fault
                            end
                        | None => Fault
                        end
                    | Fault => Fault
                    | Diverge => Diverge
                    end
                | Fault => Fault
                | Diverge => Diverge
                end
       end.
Proof. reflexivity. Qed.

(** From a memo satisfying the invariant, [fibonacci(n)] for
    [1 <= n <= 500] returns [F n] in [long long] arithmetic and keeps the
    invariant. *)
Lemma fibonacci_spec fuel : forall n dp,
  Fibonacci.dp_ok dp -> Fibonacci.in_memo n -> n <= Z.of_nat fuel ->
  exists dp',
    Fibonacci.fibonacci fuel n dp = Done (ll_wrap (Fibonacci.F (Z.to_nat n)), dp') /\
    Fibonacci.dp_ok dp' /\
    (3 <= n -> dp' !! Z.to_nat n = Some (ll_wrap (Fibonacci.F (Z.to_nat n)))).
Proof.
  induction fuel as [|fuel IH]; intros n dp Hok [Hn1 Hn2] Hfuel; [lia|].
  rewrite fibonacci_S. destruct (Z.leb_spec n 2) as [Hle|Hgt].
  - exists dp. split; [|split; [done | lia]].
    assert (n = 1 \/ n = 2) as [-> | ->] by lia; reflexivity.
  - pose proof Hok as [Hlen Hent].
    destruct (vec_at_is_Some dp n ltac:(lia)) as [m Hm]. rewrite Hm.
    pose proof Hm as Hm'. rewrite vec_at_lookup in Hm' by lia.
    destruct (Z.eqb_spec m (-1)) as [->|Hne]; cbn [negb].
    + destruct (IH (n - 1) dp Hok ltac:(unfold Fibonacci.in_memo; lia) ltac:(lia))
        as (dp1 & E1 & Hok1 & _).
      destruct (IH (n - 2) dp1 Hok1 ltac:(unfold Fibonacci.in_memo; lia) ltac:(lia))
        as (dp2 & E2 & [Hlen2 Hent2] & _).
      rewrite E1, E2.
      destruct (vec_at_is_Some dp2 n ltac:(lia)) as [m2 Hm2]. rewrite Hm2. cbn zeta.
      rewrite (vec_at_insert_eq _ _ _ _ Hm2).
      assert (ll_add (ll_wrap (Fibonacci.F (Z.to_nat (n - 1))))
                     (ll_wrap (Fibonacci.F (Z.to_nat (n - 2))))
              = ll_wrap (Fibonacci.F (Z.to_nat n))) as Hr.
      { unfold ll_add. rewrite ll_wrap_add_l, ll_wrap_add_r.
        replace (Z.to_nat n) with (S (S (Z.to_nat (n - 2)))) by lia.
        replace (Z.to_nat (n - 1)) with (S (Z.to_nat (n - 2))) by lia.
        rewrite F_rec. f_equal. lia. }
      rewrite Hr. eexists. split; [done|]. split; [split|].
      * rewrite length_insert. done.
      * intros i x Hi.
        destruct (decide (i = Z.to_nat n)) as [->|Hi'].
        -- rewrite list_lookup_insert_eq in Hi by lia. right. congruence.
        -- rewrite list_lookup_insert_ne in Hi by done. eauto.
      * intros _. apply list_lookup_insert_eq. lia.
    + destruct (Hent _ _ Hm') as [? | ->]; [done|].
      exists dp. split; [done|]. split; [done|]. done.
Qed.

Lemma calls_spec fuel ns : forall dp,
  Fibonacci.dp_ok dp -> Forall Fibonacci.in_memo ns -> (500 <= fuel)%nat ->
  exists dp', Fibonacci.calls fuel ns dp = Done dp' /\ Fibonacci.dp_ok dp'.
Proof.
  induction ns as [|n ns IH]; intros dp Hok Hns Hfuel; [by exists dp|].
  apply Forall_cons in Hns as [Hn Hns].
  destruct (fibonacci_spec fuel n dp Hok Hn) as (dp1 & E1 & Hok1 & _);
    [unfold Fibonacci.in_memo in Hn; lia|].
  destruct (IH dp1 Hok1 Hns Hfuel) as (dp' & E' & Hok').
  exists dp'. cbn [Fibonacci.calls]. by rewrite E1.
Qed.

(** X19.  Whatever calls with arguments in [1, 500] came before,
    [fibonacci(n)] for [1 <= n <= 500] returns the Fibonacci number [F n]
    in [long long] arithmetic (that is, modulo [2^64]): the memo never
    changes an answer. *)
Theorem fibonacci_correct (ns : list Z) (n : Z) (fuel : nat) :
  Forall Fibonacci.in_memo ns -> Fibonacci.in_memo n -> (500 <= fuel)%nat ->
  exists dp dp',
    Fibonacci.calls fuel ns Fibonacci.dp_init = Done dp /\
    Fibonacci.fibonacci fuel n dp = Done (ll_wrap (Fibonacci.F (Z.to_nat n)), dp').
Proof.
  intros Hns Hn Hfuel.
  destruct (calls_spec fuel ns _ dp_ok_init Hns Hfuel) as (dp & E & Hok).
  destruct (fibonacci_spec fuel n dp Hok Hn) as (dp' & E' & _);
    [unfold Fibonacci.in_memo in Hn; lia|].
  by exists dp, dp'.
Qed.

Lemma fibonacci_correct_witness :
  exists dp dp',
    Fibonacci.calls 500 [7; 3; 20] Fibonacci.dp_init = Done dp /\
    Fibonacci.fibonacci 500 10 dp = Done (ll_wrap (Fibonacci.F (Z.to_nat 10)), dp').
Proof.
  apply (fibonacci_correct [7; 3; 20] 10 500).
  - by apply (bool_decide_unpack _).
  - by apply (bool_decide_unpack _).
  - lia.
Defined.

Lemma F_92_fits k : (k <= 92)%nat -> is_ll (Fibonacci.F k).
Proof.
  intros Hk. pose proof (F_bounds k) as [H0 _]. pose proof (F_mono k 92 Hk) as H92.
  assert (Fibonacci.F 92 = 7540113804746346429) as E by (by vm_compute).
  unfold is_ll, ll_min, ll_max. lia.
Qed.

(** X20.  Up to [n = 92] the result is the exact Fibonacci number; at
    [n = 93] the addition overflows [long long] and the result is
    negative. *)
Theorem fibonacci_exact_up_to_92 (ns : list Z) (n : Z) (fuel : nat) :
  Forall Fibonacci.in_memo ns -> 1 <= n <= 93 -> (500 <= fuel)%nat ->
  exists dp dp' r,
    Fibonacci.calls fuel ns Fibonacci.dp_init = Done dp /\
    Fibonacci.fibonacci fuel n dp = Done (r, dp') /\
    (n <= 92 -> r = Fibonacci.F (Z.to_nat n)) /\
    (n = 93 -> r = Fibonacci.F 93 - 2 ^ 64 /\ r < 0).
Proof.
  intros Hns Hn Hfuel.
  destruct (fibonacci_correct ns n fuel Hns ltac:(unfold Fibonacci.in_memo; lia) Hfuel)
    as (dp & dp' & E & E').
  exists dp, dp', (ll_wrap (Fibonacci.F (Z.to_nat n))).
  split; [done|]. split; [done|]. split.
  - intros Hle. apply ll_wrap_id, F_92_fits. lia.
  - intros ->. split; by vm_compute.
Qed.

Lemma fibonacci_exact_up_to_92_witness :
  exists dp dp' r,
    Fibonacci.calls 500 [50] Fibonacci.dp_init = Done dp /\
    Fibonacci.fibonacci 500 92 dp = Done (r, dp') /\
    (92 <= 92 -> r = Fibonacci.F (Z.to_nat 92)) /\
    (92 = 93 -> r = Fibonacci.F 93 - 2 ^ 64 /\ r < 0).
Proof.
  apply (fibonacci_exact_up_to_92 [50] 92 500).
  - by apply (bool_decide_unpack _).
  - lia.
  - lia.
Defined.

(** X21.  The edges of [fibonacci]: every [n <= 2], zero and negative
    numbers included, gives 1 without touching the memo; every [n >= 501]
    whose entry is asked for indexes the 501-element memo out of bounds. *)
Theorem fibonacci_edges (fuel : nat) (n : Z) (dp : list Z) :
  length dp = 501%nat ->
  (n <= 2 -> Fibonacci.fibonacci (S fuel) n dp = Done (1, dp)) /\
  (501 <= n -> Fibonacci.fibonacci (S fuel) n dp = Fault).
Proof.
  intros Hlen. rewrite fibonacci_S. split; intros Hn.
  - by destruct (Z.leb_spec n 2); [|lia].
  - destruct (Z.leb_spec n 2); [lia|].
    rewrite vec_at_lookup by lia. rewrite lookup_ge_None_2 by lia. done.
Qed.

Lemma fibonacci_edges_witness :
  (-4 <= 2 -> Fibonacci.fibonacci 1 (-4) Fibonacci.dp_init = Done (1, Fibonacci.dp_init)) /\
  (501 <= -4 -> Fibonacci.fibonacci 1 (-4) Fibonacci.dp_init = Fault).
Proof. apply (fibonacci_edges 0 (-4) Fibonacci.dp_init). reflexivity. Defined.

Lemma wrapped_F_not_unset i : (i <= 500)%nat -> ll_wrap (Fibonacci.F i) <> -1.
Proof.
  intros Hi.
  assert (forallb (fun k => negb (ll_wrap (Fibonacci.F k) =? -1)) (seq 0 501) = true) as Hall
    by (by vm_compute).
  rewrite forallb_forall in Hall.
  specialize (Hall i ltac:(apply in_seq; lia)).
  by destruct (Z.eqb_spec (ll_wrap (Fibonacci.F i)) (-1)).
Qed.

(** X22.  The memo is hit: once [fibonacci(n)] has returned for
    [3 <= n <= 500], calling it again returns the same value without any
    recursive call (a depth of 1 is enough) and leaves the memo as it is. *)
Theorem fibonacci_memo_hit (ns : list Z) (n : Z) (fuel : nat) :
  Forall Fibonacci.in_memo ns -> 3 <= n <= 500 -> (500 <= fuel)%nat ->
  exists dp dp' r,
    Fibonacci.calls fuel ns Fibonacci.dp_init = Done dp /\
    Fibonacci.fibonacci fuel n dp = Done (r, dp') /\
    Fibonacci.fibonacci 1 n dp' = Done (r, dp').
Proof.
  intros Hns Hn Hfuel.
  destruct (calls_spec fuel ns _ dp_ok_init Hns Hfuel) as (dp & E & Hok).
  destruct (fibonacci_spec fuel n dp Hok ltac:(unfold Fibonacci.in_memo; lia) ltac:(lia))
    as (dp' & E' & Hok' & Hn').
  exists dp, dp', (ll_wrap (Fibonacci.F (Z.to_nat n))). split; [done|]. split; [done|].
  rewrite fibonacci_S. destruct (Z.leb_spec n 2); [lia|].
  rewrite vec_at_lookup by lia. rewrite Hn' by lia.
  pose proof (wrapped_F_not_unset (Z.to_nat n) ltac:(lia)).
  by destruct (Z.eqb_spec (ll_wrap (Fibonacci.F (Z.to_nat n))) (-1)).
Qed.

Lemma fibonacci_memo_hit_witness :
  exists dp dp' r,
    Fibonacci.calls 500 [4] Fibonacci.dp_init = Done dp /\
    Fibonacci.fibonacci 500 30 dp = Done (r, dp') /\
    Fibonacci.fibonacci 1 30 dp' = Done (r, dp').
Proof.
  apply (fibonacci_memo_hit [4] 30 500).
  - by apply (bool_decide_unpack _).
  - lia.
  - lia.
Defined.
